(** * update-map-events.js: schedule builder, localization merger, slugify

    A shallow embedding of [scripts/update-map-events.js] and the proofs of
    the properties its specification states.

    Conventions of the embedding.
    - A JavaScript string is the [string] of the bytes of its UTF-8
      encoding, which is what a string literal of this file denotes.  A
      character of ASCII is one byte, and every byte of a character
      outside ASCII is 128 or more.
    - A JavaScript object is the list of its own enumerable properties, in
      the order [Object.entries] lists them.  Reading a property that the
      object does not own continues in [Object.prototype], as it does in
      JavaScript.
    - A [throw] is the [Err] result of the [result] type. *)

From Stdlib Require Import Ascii.
From stdpp Require Import gmap strings list fin_maps pretty.

(** ** Characters *)

Module Char.

Local Open Scope N_scope.

Definition code (c : ascii) : N := N_of_ascii c.

Definition is_upper (c : ascii) : bool :=
  (65 <=? code c) && (code c <=? 90).

Definition is_alpha (c : ascii) : bool :=
  is_upper c || ((97 <=? code c) && (code c <=? 122)).

(** The class [[a-z0-9]] of the regular expressions of [slugify]. *)
Definition is_slug_alnum (c : ascii) : bool :=
  ((97 <=? code c) && (code c <=? 122)) || ((48 <=? code c) && (code c <=? 57)).

(** The class of the first [replace] of [slugify]: the single quote
    (39) and the double quote (34). *)
Definition is_quote (c : ascii) : bool :=
  (code c =? 39) || (code c =? 34).

Definition is_hyphen (c : ascii) : bool := code c =? 45.

(** White space and line terminators of ASCII: TAB, LF, VT, FF, CR, SP. *)
Definition is_space (c : ascii) : bool :=
  ((9 <=? code c) && (code c <=? 13)) || (code c =? 32).

Definition to_lower (c : ascii) : ascii :=
  if is_upper c then ascii_of_N (code c + 32) else c.

End Char.

(** ** Strings *)

(** The UTF-8 encoding of the character with the code point [n]; a lone
    surrogate is encoded like any other code point below 65536. *)
Definition utf8 (n : N) : string :=
  let byte (k : N) := ascii_of_N k in
  let cont (k : N) := byte (128 + k mod 64)%N in
  if (n <? 128)%N then String (byte n) EmptyString
  else if (n <? 2048)%N then
    String (byte (192 + n / 64)%N) (String (cont n) EmptyString)
  else if (n <? 65536)%N then
    String (byte (224 + n / 4096)%N)
      (String (cont (n / 64)%N) (String (cont n) EmptyString))
  else
    String (byte (240 + n / 262144)%N)
      (String (cont (n / 4096)%N)
         (String (cont (n / 64)%N) (String (cont n) EmptyString))).

(** [s.toLowerCase()].  A capital letter of ASCII becomes its small
    letter; KELVIN SIGN (U+212A, the bytes 226 132 170) becomes the letter
    k; LATIN CAPITAL LETTER I WITH DOT ABOVE (U+0130, the bytes 196 176)
    becomes the letter i followed by COMBINING DOT ABOVE (U+0307, the bytes
    204 135).  No other character has a character of ASCII in its lower
    case.  A character outside ASCII whose lower case is outside ASCII is
    kept as it is: the program compares a lower-cased string with [none]
    and replaces in it what is outside [[a-z0-9]], and neither can tell
    one character outside ASCII from another. *)
Fixpoint toLowerCase (s : string) : string :=
  match s with
  | EmptyString => EmptyString
  | String c r =>
      let plain := String (Char.to_lower c) (toLowerCase r) in
      if (Char.code c =? 196)%N then
        match r with
        | String c2 r2 =>
            if (Char.code c2 =? 176)%N then
              String "i" (String (ascii_of_N 204) (String (ascii_of_N 135)
                (toLowerCase r2)))
            else plain
        | EmptyString => plain
        end
      else if (Char.code c =? 226)%N then
        match r with
        | String c2 (String c3 r3) =>
            if ((Char.code c2 =? 132) && (Char.code c3 =? 170))%N then
              String "k" (toLowerCase r3)
            else plain
        | _ => plain
        end
      else plain
  end.

Fixpoint drop_while (p : ascii → bool) (s : string) : string :=
  match s with
  | EmptyString => EmptyString
  | String c r => if p c then drop_while p r else s
  end.

(** Removes the longest suffix whose characters satisfy [p]. *)
Fixpoint drop_while_end (p : ascii → bool) (s : string) : string :=
  match s with
  | EmptyString => EmptyString
  | String c r =>
      match drop_while_end p r with
      | EmptyString => if p c then EmptyString else String c EmptyString
      | r' => String c r'
      end
  end.

(** The white space and the line terminators that [trim] removes, by
    code point: TAB, LF, VT, FF, CR, SP, NO-BREAK SPACE, OGHAM SPACE MARK,
    EN QUAD to HAIR SPACE, LINE SEPARATOR, PARAGRAPH SEPARATOR, NARROW
    NO-BREAK SPACE, MEDIUM MATHEMATICAL SPACE, IDEOGRAPHIC SPACE and ZERO
    WIDTH NO-BREAK SPACE. *)
Definition white_space_points : list N :=
  [ 9; 10; 11; 12; 13; 32; 160; 5760;
    8192; 8193; 8194; 8195; 8196; 8197; 8198; 8199; 8200; 8201; 8202;
    8232; 8233; 8239; 8287; 12288; 65279 ]%N.

(** The string is one character of white space: one of the encodings of
    [white_space_points], of one, two or three bytes. *)
Definition is_white_space (t : string) : bool :=
  match t with
  | String c EmptyString => Char.is_space c
  | String c (String c2 EmptyString) =>
      ((Char.code c =? 194) && (Char.code c2 =? 160))%N
  | String c (String c2 (String c3 EmptyString)) =>
      let '(b, b2, b3) := (Char.code c, Char.code c2, Char.code c3) in
      (((b =? 225) && (b2 =? 154) && (b3 =? 128))
       || ((b =? 226) && (b2 =? 128)
           && (((128 <=? b3) && (b3 <=? 138)) || (b3 =? 168) || (b3 =? 169)
               || (b3 =? 175)))
       || ((b =? 226) && (b2 =? 129) && (b3 =? 159))
       || ((b =? 227) && (b2 =? 128) && (b3 =? 128))
       || ((b =? 239) && (b2 =? 187) && (b3 =? 191)))%N
  | _ => false
  end.

(** [s.trimStart()]: the characters of white space at the start are
    removed. *)
Fixpoint trimStart (s : string) : string :=
  match s with
  | EmptyString => EmptyString
  | String c r =>
      if is_white_space (String c EmptyString) then trimStart r
      else
        match r with
        | String c2 r2 =>
            if is_white_space (String c (String c2 EmptyString)) then trimStart r2
            else
              match r2 with
              | String c3 r3 =>
                  if is_white_space (String c (String c2 (String c3 EmptyString)))
                  then trimStart r3 else s
              | EmptyString => s
              end
        | EmptyString => s
        end
  end.

(** [s.trimEnd()]: the characters of white space at the end are removed.
    With the end of the rest trimmed, what is left ends with a character
    of white space only when it is that one character. *)
Fixpoint trimEnd (s : string) : string :=
  match s with
  | EmptyString => EmptyString
  | String c r =>
      if is_white_space (String c (trimEnd r)) then EmptyString
      else String c (trimEnd r)
  end.

(** [s.trim()] *)
Definition trim (s : string) : string := trimStart (trimEnd s).

(** ** slugify *)

(** First [replace] of [slugify]: every single or double quote is
    removed. *)
Fixpoint remove_quotes (s : string) : string :=
  match s with
  | EmptyString => EmptyString
  | String c r =>
      if Char.is_quote c then remove_quotes r else String c (remove_quotes r)
  end.

(** Second [replace], of [/[^a-z0-9]+/g] by a hyphen: every maximal run of characters outside
    [[a-z0-9]] becomes one hyphen.  [in_run] tells that the previous
    character belonged to a run whose hyphen is already written. *)
Fixpoint hyphenate_from (in_run : bool) (s : string) : string :=
  match s with
  | EmptyString => EmptyString
  | String c r =>
      if Char.is_slug_alnum c then String c (hyphenate_from false r)
      else if in_run then hyphenate_from true r
      else String "-" (hyphenate_from true r)
  end.

Definition hyphenate (s : string) : string := hyphenate_from false s.

(** Third [replace], of [/^-+|-+$/g] by the empty string: the hyphens at
    the start and at the end are removed. *)
Definition strip_hyphens (s : string) : string :=
  drop_while Char.is_hyphen (drop_while_end Char.is_hyphen s).

Definition slugify (name : string) : string :=
  strip_hyphens (hyphenate (remove_quotes (toLowerCase name))).

(** ** Numbers

    A JavaScript number is a double.  One that is neither [NaN], an
    infinity nor a zero is kept as the decimal fraction
    [mantissa * 10 ^ exponent] whose digits, final zeros apart, are the
    fewest that read back as the same double: these are the digits that
    [toString] prints. *)

Inductive number :=
  | NaN
  | Infinity (negative : bool)
  | Zero (negative : bool)
  | Finite (negative : bool) (mantissa : positive) (exponent : Z).

(** The number of a safe integer, one between [- 2 ^ 53] and [2 ^ 53]: a
    double holds it exactly and its digits are its shortest form.  A
    larger integer is rounded when it is read and has other digits. *)
Definition number_of_Z (z : Z) : number :=
  match z with
  | Z0 => Zero false
  | Zpos p => Finite false p 0
  | Zneg p => Finite true p 0
  end.

(** [Number.isInteger] *)
Definition isInteger (x : number) : bool :=
  match x with
  | NaN | Infinity _ => false
  | Zero _ => true
  | Finite _ m e => (0 <=? e)%Z || (Z.pos m mod 10 ^ (- e) =? 0)%Z
  end.

Definition is_zero_digit (c : ascii) : bool := (Char.code c =? 48)%N.

Fixpoint zeros (n : nat) : string :=
  match n with
  | O => ""
  | S n' => String "0" (zeros n')
  end.

(** [Number::toString] in radix 10 for the positive number [m * 10 ^ e].
    With the names of ECMAScript: [s] is the digit string without its
    final zeros, [k] its length, and the number is [s * 10 ^ (n - k)]. *)
Definition positive_toString (m : positive) (e : Z) : string :=
  let all := pretty (N.pos m) in
  let s := drop_while_end is_zero_digit all in
  let k := String.length s in
  let n := (Z.of_nat (String.length all) + e)%Z in
  if ((Z.of_nat k <=? n) && (n <=? 21))%Z then
    s +:+ zeros (Z.to_nat n - k)
  else if ((0 <? n) && (n <=? 21))%Z then
    String.substring 0 (Z.to_nat n) s +:+ "." +:+
    String.substring (Z.to_nat n) (k - Z.to_nat n) s
  else if ((-6 <? n) && (n <=? 0))%Z then
    "0." +:+ zeros (Z.to_nat (- n)) +:+ s
  else
    let exp := ((if (n - 1 <? 0)%Z then "-" else "+") +:+ pretty (Z.abs_N (n - 1))) in
    if (k =? 1)%nat then s +:+ "e" +:+ exp
    else String.substring 0 1 s +:+ "." +:+ String.substring 1 (k - 1) s
         +:+ "e" +:+ exp.

(** [x.toString()] *)
Definition Number_toString (x : number) : string :=
  match x with
  | NaN => "NaN"
  | Infinity neg => if neg then "-Infinity" else "Infinity"
  | Zero _ => "0"
  | Finite neg m e =>
      (if neg then "-" else "") +:+ positive_toString m e
  end.

(** ** Values

    [json] is what [JSON.parse] returns: the rotation entries, the catalog
    and the remote definitions.  [value] adds what reading a property can
    give besides: [undefined], a built-in function that the object
    inherits from [Object.prototype], and [Object.prototype] itself. *)

#[warnings="-register-all"]
Inductive json :=
  | JNull
  | JBool (b : bool)
  | JNumber (x : number)
  | JString (s : string)
  | JArray (items : list json)
  | JObject (props : list (string * json)).

Inductive value :=
  | Undefined
  | Json (j : json)
  | Builtin (name : string)
  | ObjectPrototype.

(** An object: its own enumerable properties in enumeration order. *)
Abbreviation object := (list (string * json)).

Inductive error :=
  | UnexpectedMapPrefix (prefix : string)
  | MissingEventType (eventName slug : string)
  | TypeError (message : string).

Inductive result (A : Type) :=
  | Ok (a : A)
  | Err (e : error).
Arguments Ok {A} a.
Arguments Err {A} e.

#[global] Instance result_bind : MBind result := λ A B f m,
  match m with
  | Ok a => f a
  | Err e => Err e
  end.

Definition is_Err {A} (r : result A) : Prop := ∃ e, r = Err e.

(** A loop whose body may throw: the first error ends it. *)
Fixpoint for_of {S B} (body : S → B → result S) (l : list B) (s : S) : result S :=
  match l with
  | [] => Ok s
  | b :: r => s' ← body s b; for_of body r s'
  end.

Fixpoint own_property {A} (props : list (string * A)) (k : string) : option A :=
  match props with
  | [] => None
  | (k', v) :: r => if String.eqb k k' then Some v else own_property r k
  end.

Definition Object_keys {A} (props : list (string * A)) : list string := props.*1.
Definition Object_values {A} (props : list (string * A)) : list A := props.*2.

(** The functions that every object inherits from [Object.prototype]. *)
Definition Object_prototype_functions : list string :=
  [ "__defineGetter__"; "__defineSetter__"; "hasOwnProperty";
    "__lookupGetter__"; "__lookupSetter__"; "isPrototypeOf";
    "propertyIsEnumerable"; "toString"; "valueOf"; "toLocaleString" ].

(** [Object.prototype[k]], read through an object that inherits from it. *)
Definition Object_prototype (k : string) : value :=
  if String.eqb k "constructor" then Builtin "Object"
  else if String.eqb k "__proto__" then ObjectPrototype
  else if bool_decide (k ∈ Object_prototype_functions) then Builtin k
  else Undefined.

(** [o[k]] for a plain object [o]: the own property, otherwise the
    inherited one, otherwise [undefined]. *)
Definition read (o : object) (k : string) : value :=
  match own_property o k with
  | Some j => Json j
  | None => Object_prototype k
  end.

Definition truthy_json (j : json) : bool :=
  match j with
  | JNull => false
  | JBool b => b
  | JNumber (NaN | Zero _) => false
  | JNumber _ => true
  | JString s => negb (String.eqb s "")
  | JArray _ | JObject _ => true
  end.

Definition truthy (v : value) : bool :=
  match v with
  | Undefined => false
  | Json j => truthy_json j
  | Builtin _ | ObjectPrototype => true
  end.

Definition typeof_json (j : json) : string :=
  match j with
  | JBool _ => "boolean"
  | JNumber _ => "number"
  | JString _ => "string"
  | JNull | JArray _ | JObject _ => "object"
  end.

Definition typeof (v : value) : string :=
  match v with
  | Undefined => "undefined"
  | Json j => typeof_json j
  | Builtin _ => "function"
  | ObjectPrototype => "object"
  end.

(** [String(j)].  An array joins the strings of its items with commas,
    [null] items giving the empty string.  An object prints as
    [[object Object]] through the inherited [toString]; an own property
    named [toString] hides it, and as no value of a JSON document can be
    called the conversion then throws. *)
Fixpoint String_json (j : json) : result string :=
  match j with
  | JNull => Ok "null"
  | JBool b => Ok (if b then "true" else "false")
  | JNumber x => Ok (Number_toString x)
  | JString s => Ok s
  | JArray items =>
      let item (x : json) : result string :=
        match x with
        | JNull => Ok ""
        | _ => String_json x
        end in
      (fix join (l : list json) : result string :=
         match l with
         | [] => Ok ""
         | x :: r =>
             a ← item x;
             match r with
             | [] => Ok a
             | _ => b ← join r; Ok (a +:+ "," +:+ b)
             end
         end) items
  | JObject props =>
      match own_property props "toString" with
      | Some _ => Err (TypeError "Cannot convert object to primitive value")
      | None => Ok "[object Object]"
      end
  end.

(** [String(v)], which is also the property key that [v] stands for. *)
Definition String_value (v : value) : result string :=
  match v with
  | Undefined => Ok "undefined"
  | Json j => String_json j
  | Builtin name => Ok ("function " +:+ name +:+ "() { [native code] }")
  | ObjectPrototype => Ok "[object Object]"
  end.

(** ** buildSchedule *)

Definition prefixToMapId : object :=
  [ ("dam", JString "dam-battleground");
    ("buriedCity", JString "buried-city");
    ("spaceport", JString "the-spaceport");
    ("blueGate", JString "blue-gate");
    ("stellaMontis", JString "stella-montis") ].

(** The identifiers of the maps, [Object.values(prefixToMapId)] as
    strings. *)
Definition mapIds : list string :=
  [ "dam-battleground"; "buried-city"; "the-spaceport"; "blue-gate";
    "stella-montis" ].

(** [schedule[mapId][tier][hour] = slug] *)
Abbreviation bucket := (gmap string string).
Abbreviation tiers := (gmap string (gmap string string)).
Abbreviation schedule := (gmap string (gmap string (gmap string string))).

(** [{ major: {}, minor: {} }] *)
Definition empty_tiers : tiers := <["minor" := ∅]> (<["major" := ∅]> ∅).

(** The [reduce] over [Object.values(prefixToMapId)] that seeds the
    schedule. *)
Definition seed : result schedule :=
  for_of (λ (acc : schedule) (mapId : json),
            key ← String_json mapId; Ok (<[key := empty_tiers]> acc))
         (Object_values prefixToMapId) ∅.

(** [/^([a-zA-Z]+)(Minor|Major)$/.exec(key)]: the two groups. *)
Definition is_tier (s : string) : bool :=
  String.eqb s "Minor" || String.eqb s "Major".

Fixpoint regexp_exec (key : string) : option (string * string) :=
  match key with
  | EmptyString => None
  | String c r =>
      if Char.is_alpha c then
        if is_tier r then Some (String c EmptyString, r)
        else '(prefix, tierRaw) ← regexp_exec r; Some (String c prefix, tierRaw)
      else None
  end.

(** The pattern of that regular expression, in words: [key] is [prefix]
    followed by [tierRaw], [prefix] is a non-empty string of ASCII letters
    and [tierRaw] is [Minor] or [Major]. *)
Fixpoint alphabetic (s : string) : bool :=
  match s with
  | EmptyString => true
  | String c r => Char.is_alpha c && alphabetic r
  end.

Definition matches_pattern (key prefix tierRaw : string) : Prop :=
  key = prefix +:+ tierRaw ∧ prefix ≠ "" ∧ alphabetic prefix = true
  ∧ (tierRaw = "Minor" ∨ tierRaw = "Major").

(** [typeof rawName === "string" ? rawName.trim() : String(rawName || "")] *)
Definition eventName_of (rawName : json) : result string :=
  match rawName with
  | JString s => Ok (trim s)
  | _ => String_json (if truthy_json rawName then rawName else JString "")
  end.

(** [!eventName || eventName.toLowerCase() === "none"] *)
Definition no_event (eventName : string) : bool :=
  String.eqb eventName "" || String.eqb (toLowerCase eventName) "none".

(** The assignment [schedule[mapId][tier][hour] = slug].  When [schedule]
    has no own property for the key of [mapId], [schedule[mapId]] is
    [undefined] or an inherited built-in without the tier, and the
    assignment throws; so it does on a missing tier. *)
Definition assign (sched : schedule) (mapId : value) (tier hour slug : string)
  : result schedule :=
  key ← String_value mapId;
  match sched !! key with
  | None => Err (TypeError "Cannot read properties of undefined")
  | Some ts =>
      match ts !! tier with
      | None => Err (TypeError "Cannot set properties of undefined")
      | Some b => Ok (<[key := <[tier := <[hour := slug]> b]> ts]> sched)
      end
  end.

(** The body of the loop over [Object.entries(entry)]. *)
Definition process_field (eventTypes : object) (hour : number)
    (sched : schedule) (field : string * json) : result schedule :=
  let '(key, rawName) := field in
  if String.eqb key "hour" then Ok sched else
  match regexp_exec key with
  | None => Ok sched
  | Some (prefix, tierRaw) =>
      let mapId := read prefixToMapId prefix in
      if negb (truthy mapId) then Err (UnexpectedMapPrefix prefix) else
      let tier := toLowerCase tierRaw in
      eventName ← eventName_of rawName;
      if no_event eventName then Ok sched else
      let slug := slugify eventName in
      if negb (truthy (read eventTypes slug)) then
        Err (MissingEventType eventName slug)
      else assign sched mapId tier (Number_toString hour) slug
  end.

(** The body of the loop over [fullRotation].  Reading [hour] from [null]
    throws; a value that is not an object has no [hour]. *)
Definition process_entry (eventTypes : object) (sched : schedule) (entry : json)
  : result schedule :=
  match entry with
  | JNull => Err (TypeError "Cannot read properties of null (reading 'hour')")
  | JObject props =>
      match read props "hour" with
      | Json (JNumber hour) => for_of (process_field eventTypes hour) props sched
      | _ => Ok sched
      end
  | _ => Ok sched
  end.

Definition buildSchedule (fullRotation : list json) (eventTypes : object)
  : result schedule :=
  sched ← seed;
  for_of (process_entry eventTypes) fullRotation sched.

(** [schedule[mapId][tier][hour]] of a finished schedule. *)
Definition slot (sched : schedule) (mapId tier hour : string) : option string :=
  ts ← sched !! mapId; b ← ts !! tier; b !! hour.

Definition hour_5_ambush : json :=
  JObject [("hour", JNumber (number_of_Z 5)); ("buriedCityMinor", JString "Ambush")].

(** ** mergeEventLocalizations *)

(** The code points of a string, read off its UTF-8 encoding.  A byte
    that starts no character is kept as a code point of its own. *)
Fixpoint code_points (s : string) : list N :=
  match s with
  | EmptyString => []
  | String c r =>
      let b := Char.code c in
      let cont (x : ascii) := ((128 <=? Char.code x) && (Char.code x <? 192))%N in
      let low (x : ascii) := (Char.code x - 128)%N in
      let alone := b :: code_points r in
      if (b <? 192)%N then alone
      else
        match r with
        | String c2 r2 =>
            if ((b <? 224) && cont c2)%N then
              ((b - 192) * 64 + low c2)%N :: code_points r2
            else
              match r2 with
              | String c3 r3 =>
                  if ((b <? 240) && cont c2 && cont c3)%N then
                    ((b - 224) * 4096 + low c2 * 64 + low c3)%N :: code_points r3
                  else
                    match r3 with
                    | String c4 r4 =>
                        if ((240 <=? b) && cont c2 && cont c3 && cont c4)%N then
                          ((b - 240) * 262144 + low c2 * 4096 + low c3 * 64
                           + low c4)%N :: code_points r4
                        else alone
                    | EmptyString => alone
                    end
              | EmptyString => alone
              end
        | EmptyString => alone
        end
  end.

(** The code units of a string, as [s.length] counts them and [s[i]]
    reads them: a code point of 65536 or more is a pair of surrogates. *)
Definition code_units (s : string) : list N :=
  flat_map (λ n, if (n <? 65536)%N then [n]
                 else [55296 + (n - 65536) / 1024; 56320 + (n - 65536) mod 1024]%N)
           (code_points s).

(** [{ ...j }]: the own enumerable properties of [j].  An array gives its
    items under their indices, a string its code units, each a string of
    its own; [null], a number and a boolean give nothing. *)
Definition own_enumerable (j : json) : object :=
  match j with
  | JObject props => props
  | JArray items => imap (λ i x, (pretty i, x)) items
  | JString s => imap (λ i u, (pretty i, JString (utf8 u))) (code_units s)
  | JNull | JBool _ | JNumber _ => []
  end.

(** [o[k] = v] on a copy of [o]: an own property keeps its place, a new
    one comes last. *)
Fixpoint set_property (k : string) (v : json) (o : object) : object :=
  match o with
  | [] => [(k, v)]
  | (k', v') :: r =>
      if String.eqb k k' then (k, v) :: r else (k', v') :: set_property k v r
  end.

(** [remoteEventTypes?.[slug]?.localizations].  No built-in object has a
    property of this name, so only a plain object answers with anything
    but [undefined]. *)
Definition remote_localizations (remoteEventTypes : object) (slug : string) : value :=
  match read remoteEventTypes slug with
  | Json (JObject props) => read props "localizations"
  | _ => Undefined
  end.

(** The body of the loop over [Object.entries(eventTypes)]. *)
Definition merge_entry (remoteEventTypes : object) (next : object)
    (entry : string * json) : object :=
  let '(slug, config) := entry in
  let localizations := remote_localizations remoteEventTypes slug in
  if negb (truthy localizations)
     || negb (String.eqb (typeof localizations) "object") then next
  else
    match localizations with
    | Json l =>
        set_property slug
          (JObject (set_property "localizations" l (own_enumerable config))) next
    | _ => next
    end.

Definition mergeEventLocalizations (eventTypes remoteEventTypes : object) : object :=
  fold_left (merge_entry remoteEventTypes) eventTypes eventTypes.

(** What the specification calls a structured mapping: a value that is
    not [null] and whose [typeof] is [object]. *)
Definition structured (j : json) : bool :=
  match j with
  | JObject _ | JArray _ => true
  | _ => false
  end.

(** The structured [localizations] that the remote mapping carries for
    [slug], in the words of the specification: the remote definition of
    [slug] is a record with a [localizations] field that is structured. *)
Definition carried_localizations (remoteEventTypes : object) (slug : string)
  : option json :=
  match own_property remoteEventTypes slug with
  | Some (JObject props) =>
      match own_property props "localizations" with
      | Some l => if structured l then Some l else None
      | None => None
      end
  | _ => None
  end.

(** The entry that the merge gives for [slug], whose local definition is
    [config], in the words of the specification: with structured remote
    localizations the definition with only its [localizations] replaced,
    the definition itself otherwise. *)
Definition merged (remoteEventTypes : object) (slug : string) (config : json) : json :=
  match carried_localizations remoteEventTypes slug with
  | Some l => JObject (set_property "localizations" l (own_enumerable config))
  | None => config
  end.

(** ** Sample documents *)

Definition en_ambush : json := JObject [("en", JString "Ambush")].

Definition local_catalog : object :=
  [ ("ambush", JObject [("icon", JString "ambush.png");
                        ("localizations", JObject [("de", JString "Hinterhalt")])]);
    ("night-raid", JObject [("icon", JString "night.png");
                            ("localizations", JObject [("en", JString "Night Raid")])]);
    ("harvest", JObject [("icon", JString "harvest.png")]) ].

Definition remote_catalog : object :=
  [ ("ambush", JObject [("localizations", en_ambush)]);
    ("harvest", JObject [("localizations", JString "soon")]);
    ("storm", JObject [("localizations", JObject [("en", JString "Storm")])]) ].

Definition ambush_catalog : object := [("ambush", JObject [("icon", JString "ambush.png")])].

(** [{hour: 0.5, damMajor: "Ambush"}] *)
Definition half_hour_entry : json :=
  JObject [("hour", JNumber (Finite false 5 (-1))); ("damMajor", JString "Ambush")].

(** [{hour: 3, damMajor: "None"}] *)
Definition dam_none_entry : json :=
  JObject [("hour", JNumber (number_of_Z 3)); ("damMajor", JString "None")].

(** [{hour: 3, damMajor: [" none "]}] *)
Definition dam_array_entry : json :=
  JObject [("hour", JNumber (number_of_Z 3));
           ("damMajor", JArray [JString " none "])].

(** [{hour: 3, zooMajor: "None"}] *)
Definition zoo_none_entry : json :=
  JObject [("hour", JNumber (number_of_Z 3)); ("zooMajor", JString "None")].

(** [{hour: 1, constructorMajor: "None"}] *)
Definition constructor_prefix_entry : json :=
  JObject [("hour", JNumber (number_of_Z 1)); ("constructorMajor", JString "None")].

(** [{hour: 1, toStringMajor: "Ambush"}] *)
Definition toString_prefix_entry : json :=
  JObject [("hour", JNumber (number_of_Z 1)); ("toStringMajor", JString "Ambush")].

(** [{hour: 1, damMajor: "Constructor"}] *)
Definition constructor_event_entry : json :=
  JObject [("hour", JNumber (number_of_Z 1)); ("damMajor", JString "Constructor")].

(** [{hour: 2, damMinor: "Ambush"}] with a catalog [{ambush: null}] *)
Definition dam_ambush_entry : json :=
  JObject [("hour", JNumber (number_of_Z 2)); ("damMinor", JString "Ambush")].

Definition null_catalog : object := [("ambush", JNull)].

(** ** Definitions of the proofs *)

(** [slugify] over any lower-casing of strings. *)
Definition slugify_with (lower : string → string) (name : string) : string :=
  strip_hyphens (hyphenate (remove_quotes (lower name))).

(** [slug_shaped b s]: [s] holds characters of [[a-z0-9]] and single
    hyphens only; with [b] set, it does not start with a hyphen either. *)
Fixpoint slug_shaped (b : bool) (s : string) : Prop :=
  match s with
  | EmptyString => True
  | String c r =>
      if Char.is_slug_alnum c then slug_shaped false r
      else c = "-"%char ∧ b = false ∧ slug_shaped true r
  end.

(** The schedule that [seed] returns. *)
Definition seeded : schedule :=
  <["stella-montis" := empty_tiers]> (<["blue-gate" := empty_tiers]>
  (<["the-spaceport" := empty_tiers]> (<["buried-city" := empty_tiers]>
  (<["dam-battleground" := empty_tiers]> ∅)))).

(** What the loops keep true of the schedule: its keys are the map
    identifiers, and each map has its two tiers. *)
Definition well_seeded (s : schedule) : Prop :=
  dom s = (list_to_set mapIds : gset string)
  ∧ ∀ id ts, s !! id = Some ts → is_Some (ts !! "major") ∧ is_Some (ts !! "minor").

Definition result_slots (r : result schedule) : option schedule :=
  match r with
  | Ok s => Some s
  | Err _ => None
  end.

(** ** The words of the claims *)

(** [entry.hour] of a record. *)
Definition hour_of (entry : json) : value :=
  match entry with
  | JObject props => read props "hour"
  | _ => Undefined
  end.

(** The entry has an [hour] that is an integer. *)
Definition integer_hour (entry : json) : bool :=
  match hour_of entry with
  | Json (JNumber x) => isInteger x
  | _ => false
  end.

(** buildSchedule skips the entry: from whatever schedule the loop has
    reached, the round of the entry neither throws nor changes it. *)
Definition skips_entry (eventTypes : object) (entry : json) : Prop :=
  ∀ s, process_entry eventTypes s entry = Ok s.

(** buildSchedule skips the field, in an entry whose hour is [hour]. *)
Definition skips_field (eventTypes : object) (hour : number) (field : string * json) : Prop :=
  ∀ s, process_field eventTypes hour s field = Ok s.

(** ** Words of the further properties *)

(** The string has a character of [[a-z0-9]]. *)
Fixpoint has_slug_alnum (s : string) : bool :=
  match s with
  | EmptyString => false
  | String c r => Char.is_slug_alnum c || has_slug_alnum r
  end.

(** The lower case of the string has a character of [[a-z0-9]]: the
    string has a letter of ASCII, small or capital, a digit, KELVIN SIGN
    or LATIN CAPITAL LETTER I WITH DOT ABOVE. *)
Definition has_alnum (s : string) : bool := has_slug_alnum (toLowerCase s).

(** The string is made of whole characters: it is the UTF-8 encoding of
    a sequence of code points and does not end inside one, as is every
    JavaScript string. *)
Definition lead2 (c : ascii) : bool := ((192 <=? Char.code c) && (Char.code c <? 224))%N.
Definition lead3 (c : ascii) : bool := ((224 <=? Char.code c) && (Char.code c <? 240))%N.
Definition lead4 (c : ascii) : bool := (240 <=? Char.code c)%N.
Definition continues (c : ascii) : bool := ((128 <=? Char.code c) && (Char.code c <? 192))%N.

Inductive whole_characters : string → Prop :=
  | whole_empty : whole_characters EmptyString
  | whole_1 c r :
      (Char.code c <? 128)%N = true → whole_characters r →
      whole_characters (String c r)
  | whole_2 c c2 r :
      lead2 c = true → continues c2 = true → whole_characters r →
      whole_characters (String c (String c2 r))
  | whole_3 c c2 c3 r :
      lead3 c = true → continues c2 = true → continues c3 = true →
      whole_characters r →
      whole_characters (String c (String c2 (String c3 r)))
  | whole_4 c c2 c3 c4 r :
      lead4 c = true → continues c2 = true → continues c3 = true →
      continues c4 = true → whole_characters r →
      whole_characters (String c (String c2 (String c3 (String c4 r)))).

(** Every map of the schedule has the tiers [major] and [minor] and no
    other. *)
Definition two_tiers (s : schedule) : Prop :=
  ∀ id ts, s !! id = Some ts → dom ts = ({[ "major"; "minor" ]} : gset string).

(** The slot [mapId / tier / hour] has its slug from the rotation list:
    an entry with a number for hour has a field whose name matches the
    pattern with a prefix of the table for [mapId], and the event name of
    its value passes the tests of the loop and has this slug. *)
Definition slot_source (eventTypes : object) (fullRotation : list json)
    (mapId tier hour slug : string) : Prop :=
  ∃ props h key rawName prefix tierRaw name,
    JObject props ∈ fullRotation ∧ read props "hour" = Json (JNumber h)
    ∧ (key, rawName) ∈ props
    ∧ matches_pattern key prefix tierRaw
    ∧ own_property prefixToMapId prefix = Some (JString mapId)
    ∧ tier = toLowerCase tierRaw ∧ hour = Number_toString h
    ∧ eventName_of rawName = Ok name ∧ no_event name = false
    ∧ slug = slugify name ∧ truthy (read eventTypes slug) = true.

(** A rotation entry that is neither a record nor [null]: a boolean, a
    number, a string or an array. *)
Definition not_a_record (entry : json) : bool :=
  match entry with
  | JNull | JObject _ => false
  | _ => true
  end.

(** * Properties *)

(** ** Sample evaluations *)

Example slugify_ambush : slugify "Ambush" = "ambush".
Proof. reflexivity. Qed.

Example slugify_runs : slugify "  Night -- Raid  (II) " = "night-raid-ii".
Proof. reflexivity. Qed.

Example toString_5 : Number_toString (number_of_Z 5) = "5".
Proof. reflexivity. Qed.

Example toString_120 : Number_toString (number_of_Z 120) = "120".
Proof. reflexivity. Qed.

Example toString_minus_7 : Number_toString (number_of_Z (-7)) = "-7".
Proof. reflexivity. Qed.

Example toString_half : Number_toString (Finite false 5 (-1)) = "0.5".
Proof. reflexivity. Qed.

Example toString_12_5 : Number_toString (Finite false 1250 (-2)) = "12.5".
Proof. reflexivity. Qed.

Example toString_small : Number_toString (Finite false 15 (-8)) = "1.5e-7".
Proof. reflexivity. Qed.

Example toString_large : Number_toString (Finite false 1 21) = "1e+21".
Proof. reflexivity. Qed.

Example toString_1e20 : Number_toString (Finite false 1 20) = "100000000000000000000".
Proof. reflexivity. Qed.

Example String_array :
  String_json (JArray [JNumber (number_of_Z 1); JNull; JArray [JString "a"; JBool true]])
  = Ok "1,,a,true".
Proof. reflexivity. Qed.

Example buildSchedule_ambush :
  ∃ s, buildSchedule [hour_5_ambush] [("ambush", JObject [])] = Ok s
       ∧ slot s "buried-city" "minor" "5" = Some "ambush"
       ∧ slot s "buried-city" "major" "5" = None.
Proof. eexists. split; [reflexivity|]. split; vm_compute; reflexivity. Qed.

(** Characters outside ASCII: NO-BREAK SPACE is 160, KELVIN SIGN 8490 and
    LATIN CAPITAL LETTER I WITH DOT ABOVE 304. *)
Example utf8_bytes :
  utf8 160 = String (ascii_of_N 194) (String (ascii_of_N 160) "")
  ∧ utf8 304 = String (ascii_of_N 196) (String (ascii_of_N 176) "")
  ∧ utf8 775 = String (ascii_of_N 204) (String (ascii_of_N 135) "")
  ∧ utf8 8490
    = String (ascii_of_N 226) (String (ascii_of_N 132) (String (ascii_of_N 170) "")).
Proof. split_and!; reflexivity. Qed.

Example toLowerCase_outside_ascii :
  toLowerCase (utf8 8490) = "k"
  ∧ toLowerCase (utf8 304 +:+ "STANBUL") = "i" +:+ utf8 775 +:+ "stanbul"
  ∧ slugify (utf8 8490) = "k"
  ∧ slugify (utf8 304 +:+ "stanbul") = "i-stanbul"
  ∧ slugify ("Caf" +:+ utf8 201 +:+ " Noir") = "caf-noir".
Proof. split_and!; reflexivity. Qed.

Example trim_outside_ascii :
  trim (utf8 65279 +:+ " None" +:+ utf8 160 +:+ utf8 8232) = "None"
  ∧ trim (utf8 8195 +:+ utf8 12288) = ""
  ∧ trim ("a" +:+ utf8 160 +:+ "b") = "a" +:+ utf8 160 +:+ "b"
  ∧ trim (utf8 133 +:+ "x" +:+ utf8 8203) = utf8 133 +:+ "x" +:+ utf8 8203.
Proof. split_and!; reflexivity. Qed.

(** The encoding of each of [white_space_points] is a character of white
    space, and no other string is. *)
Example white_space_points_recognised :
  forallb (λ n, is_white_space (utf8 n)) white_space_points = true.
Proof. reflexivity. Qed.

Lemma code_eq c n : (Char.code c =? n)%N = true → c = ascii_of_N n.
Proof.
  intros <-%N.eqb_eq. unfold Char.code. by rewrite ascii_N_embedding.
Qed.

Lemma is_white_space_listed t :
  is_white_space t = true → ∃ n, n ∈ white_space_points ∧ t = utf8 n.
Proof.
  destruct t as [|c [|c2 [|c3 [|c4 r]]]]; try done; cbn [is_white_space].
  - intros H. exists (Char.code c).
    destruct c as [[] [] [] [] [] [] [] []]; try discriminate H;
      (split; [apply (bool_decide_unpack _); vm_compute; exact I|reflexivity]).
  - intros [->%code_eq ->%code_eq]%andb_true_iff. exists 160%N.
    split; [apply (bool_decide_unpack _); vm_compute; exact I|reflexivity].
  - intros H.
    exists ((Char.code c - 224) * 4096 + (Char.code c2 - 128) * 64
            + (Char.code c3 - 128))%N.
    repeat match type of H with
           | (_ || _) = true => apply orb_true_iff in H as [H|H]
           end;
      repeat match type of H with
             | (_ && _ && _) = true => apply andb_true_iff in H as [H ?]
             | (_ && _) = true => apply andb_true_iff in H as [?%code_eq ?%code_eq]
             end; subst c c2;
      destruct c3 as [[] [] [] [] [] [] [] []]; try discriminate;
      (split; [apply (bool_decide_unpack _); vm_compute; exact I|reflexivity]).
Qed.

Example code_points_utf8 :
  code_points ("a" +:+ utf8 233 +:+ utf8 8490 +:+ utf8 128512)
  = [97; 233; 8490; 128512]%N
  ∧ code_units ("a" +:+ utf8 233 +:+ utf8 128512) = [97; 233; 55357; 56832]%N.
Proof. split; reflexivity. Qed.

Example spread_of_a_string :
  own_enumerable (JString ("h" +:+ utf8 233))
  = [("0", JString "h"); ("1", JString (utf8 233))].
Proof. reflexivity. Qed.

Example no_break_space_trimmed :
  eventName_of (JString ("None" +:+ utf8 160)) = Ok "None"
  ∧ buildSchedule
      [JObject [("hour", JNumber (number_of_Z 3));
                ("damMajor", JString ("None" +:+ utf8 160))]]
      [("none", JNull)] = Ok seeded.
Proof. split; reflexivity. Qed.

Example kelvin_sign_slug :
  ∃ s, buildSchedule
         [JObject [("hour", JNumber (number_of_Z 1)); ("damMajor", JString (utf8 8490))]]
         [("", JNull); ("k", JObject [])] = Ok s
       ∧ slot s "dam-battleground" "major" "1" = Some "k".
Proof. eexists. split; [reflexivity|]. vm_compute. reflexivity. Qed.

(** ** Facts about slugify *)

Lemma slug_alnum_lower c : Char.is_slug_alnum c = true → Char.to_lower c = c.
Proof. destruct c as [[] [] [] [] [] [] [] []]; vm_compute; congruence. Qed.

Lemma slug_alnum_not_quote c : Char.is_slug_alnum c = true → Char.is_quote c = false.
Proof. destruct c as [[] [] [] [] [] [] [] []]; vm_compute; congruence. Qed.

Lemma slug_alnum_not_hyphen c : Char.is_slug_alnum c = true → Char.is_hyphen c = false.
Proof. destruct c as [[] [] [] [] [] [] [] []]; vm_compute; congruence. Qed.

Lemma is_hyphen_spec c : Char.is_hyphen c = true ↔ c = "-"%char.
Proof.
  split; [|intros ->; reflexivity].
  destruct c as [[] [] [] [] [] [] [] []]; vm_compute; congruence.
Qed.

Lemma slug_shaped_weaken b s : slug_shaped b s → slug_shaped false s.
Proof.
  destruct s as [|c r]; simpl; [done|].
  destruct (Char.is_slug_alnum c); [done|]. intros (? & _ & ?); done.
Qed.

Lemma hyphenate_from_shaped b s : slug_shaped b (hyphenate_from b s).
Proof.
  revert b; induction s as [|c r IH]; intros b; simpl; [done|].
  destruct (Char.is_slug_alnum c) eqn:Hc; simpl.
  - rewrite Hc. apply IH.
  - destruct b; simpl; [apply IH|]. split_and!; [done..|apply IH].
Qed.

Lemma drop_while_end_shaped p b s :
  slug_shaped b s → slug_shaped b (drop_while_end p s).
Proof.
  revert b; induction s as [|c r IH]; intros b; simpl; [done|].
  destruct (Char.is_slug_alnum c) eqn:Hc.
  - intros H%IH. destruct (drop_while_end p r) eqn:Hr.
    + destruct (p c); simpl; [done|]. by rewrite Hc.
    + simpl. by rewrite Hc.
  - intros (-> & -> & H%IH). destruct (drop_while_end p r) eqn:Hr.
    + destruct (p "-"%char); simpl; done.
    + simpl. done.
Qed.

Lemma drop_hyphens_shaped s :
  slug_shaped false s → slug_shaped true (drop_while Char.is_hyphen s).
Proof.
  induction s as [|c r IH]; simpl; [done|].
  destruct (Char.is_slug_alnum c) eqn:Hc.
  - rewrite (slug_alnum_not_hyphen c Hc). simpl. by rewrite Hc.
  - intros (-> & _ & H). simpl. apply IH. by eapply slug_shaped_weaken.
Qed.

(** A byte that starts neither of the two characters that [toLowerCase]
    rewrites is lower-cased on its own. *)
Lemma toLowerCase_plain c r :
  (Char.code c =? 196)%N = false → (Char.code c =? 226)%N = false →
  toLowerCase (String c r) = String (Char.to_lower c) (toLowerCase r).
Proof. intros H196 H226. cbn [toLowerCase]. by rewrite H196, H226. Qed.

Lemma ascii_plain c :
  (Char.code c <? 128)%N = true →
  (Char.code c =? 196)%N = false ∧ (Char.code c =? 226)%N = false.
Proof.
  intros Hc%N.ltb_lt. split; apply N.eqb_neq; lia.
Qed.

Lemma slug_alnum_ascii c : Char.is_slug_alnum c = true → (Char.code c <? 128)%N = true.
Proof. destruct c as [[] [] [] [] [] [] [] []]; vm_compute; congruence. Qed.

Lemma slug_shaped_toLowerCase b s : slug_shaped b s → toLowerCase s = s.
Proof.
  revert b; induction s as [|c r IH]; intros b; [done|]. cbn [slug_shaped].
  destruct (Char.is_slug_alnum c) eqn:Hc.
  - intros H. destruct (ascii_plain c (slug_alnum_ascii c Hc)).
    rewrite toLowerCase_plain by done.
    by rewrite (slug_alnum_lower c Hc), (IH _ H).
  - intros (-> & _ & H). rewrite toLowerCase_plain by done.
    by rewrite (IH _ H).
Qed.

Lemma slug_shaped_remove_quotes b s : slug_shaped b s → remove_quotes s = s.
Proof.
  revert b; induction s as [|c r IH]; intros b; simpl; [done|].
  destruct (Char.is_slug_alnum c) eqn:Hc.
  - intros H. by rewrite (slug_alnum_not_quote c Hc), (IH _ H).
  - intros (-> & _ & H). simpl. by rewrite (IH _ H).
Qed.

Lemma slug_shaped_hyphenate b s : slug_shaped b s → hyphenate_from b s = s.
Proof.
  revert b; induction s as [|c r IH]; intros b; simpl; [done|].
  destruct (Char.is_slug_alnum c) eqn:Hc.
  - intros H. by rewrite (IH _ H).
  - intros (-> & -> & H). by rewrite (IH _ H).
Qed.

Lemma slug_shaped_drop_hyphens s :
  slug_shaped true s → drop_while Char.is_hyphen s = s.
Proof.
  destruct s as [|c r]; simpl; [done|].
  destruct (Char.is_slug_alnum c) eqn:Hc.
  - by rewrite (slug_alnum_not_hyphen c Hc).
  - intros (_ & ? & _); done.
Qed.

Lemma drop_while_end_idemp p s :
  drop_while_end p (drop_while_end p s) = drop_while_end p s.
Proof.
  induction s as [|c r IH]; simpl; [done|].
  destruct (drop_while_end p r) as [|c' r'] eqn:Hr.
  - destruct (p c) eqn:Hc; simpl; [done|]. by rewrite Hc.
  - simpl in *. rewrite IH. done.
Qed.

Lemma drop_while_end_drop_while p s :
  drop_while_end p s = s → drop_while_end p (drop_while p s) = drop_while p s.
Proof.
  induction s as [|c r IH]; [done|].
  cbn [drop_while]. destruct (p c) eqn:Hc; [|done].
  cbn [drop_while_end].
  destruct (drop_while_end p r) as [|c' r'] eqn:Hr.
  - rewrite Hc. discriminate.
  - intros [= Heq]. apply IH. congruence.
Qed.

Lemma strip_hyphens_fixed s :
  drop_while_end Char.is_hyphen (strip_hyphens s) = strip_hyphens s.
Proof. apply drop_while_end_drop_while, drop_while_end_idemp. Qed.

Lemma slugify_shaped name : slug_shaped true (slugify name).
Proof.
  apply drop_hyphens_shaped, drop_while_end_shaped, hyphenate_from_shaped.
Qed.

Example merge_sample :
  mergeEventLocalizations local_catalog remote_catalog =
  [ ("ambush", JObject [("icon", JString "ambush.png"); ("localizations", en_ambush)]);
    ("night-raid", JObject [("icon", JString "night.png");
                            ("localizations", JObject [("en", JString "Night Raid")])]);
    ("harvest", JObject [("icon", JString "harvest.png")]) ].
Proof. reflexivity. Qed.

(** Idempotence needs one fact about [toLowerCase]: that it leaves a slug
    as it is.  The lower-casing of all of Unicode has this property as
    well, for it maps a small letter, a digit and a hyphen to
    themselves. *)
Section lowercase.
Variable lower : string → string.
Hypothesis lower_slug : ∀ s, slug_shaped true s → lower s = s.

Lemma slugify_with_shaped name : slug_shaped true (slugify_with lower name).
Proof.
  apply drop_hyphens_shaped, drop_while_end_shaped, hyphenate_from_shaped.
Qed.

Lemma slugify_with_idempotent name :
  slugify_with lower (slugify_with lower name) = slugify_with lower name.
Proof.
  pose proof (slugify_with_shaped name) as Hs.
  unfold slugify_with at 1. unfold hyphenate.
  rewrite (lower_slug _ Hs), (slug_shaped_remove_quotes _ _ Hs).
  rewrite (slug_shaped_hyphenate false) by (by eapply slug_shaped_weaken).
  unfold strip_hyphens at 1.
  replace (drop_while_end Char.is_hyphen (slugify_with lower name))
    with (slugify_with lower name) by (symmetry; apply strip_hyphens_fixed).
  by apply slug_shaped_drop_hyphens.
Qed.
End lowercase.

(** C5. slugify is total and idempotent: it maps every string to a string,
    applying it twice gives what applying it once gives, and it maps
    [Sea Dragon's Lair!] to [sea-dragons-lair], which it leaves as it is. *)
Theorem slugify_total_idempotent :
  (∀ s : string, ∃ slug : string, slugify s = slug)
  ∧ (∀ s : string, slugify (slugify s) = slugify s)
  ∧ slugify "Sea Dragon's Lair!" = "sea-dragons-lair"
  ∧ slugify "sea-dragons-lair" = "sea-dragons-lair".
Proof.
  split_and!; [by eauto| |reflexivity..].
  intros s. apply (slugify_with_idempotent toLowerCase).
  intros t. apply slug_shaped_toLowerCase.
Qed.

(** ** The regular expression of the field names *)

Lemma string_length_app (a b : string) :
  String.length (a +:+ b) = (String.length a + String.length b)%nat.
Proof. induction a as [|c a IH]; simpl; [done|]. by rewrite IH. Qed.

Lemma is_tier_spec t : is_tier t = true ↔ t = "Minor" ∨ t = "Major".
Proof.
  unfold is_tier. rewrite orb_true_iff, !String.eqb_eq. done.
Qed.

Lemma is_tier_length t : is_tier t = true → String.length t = 5%nat.
Proof. intros [-> | ->]%is_tier_spec; reflexivity. Qed.

Lemma regexp_exec_sound key prefix tierRaw :
  regexp_exec key = Some (prefix, tierRaw) → matches_pattern key prefix tierRaw.
Proof.
  revert prefix; induction key as [|c r IH]; intros prefix; simpl; [done|].
  destruct (Char.is_alpha c) eqn:Hc; [|done].
  destruct (is_tier r) eqn:Hr.
  - intros [= <- <-]. split_and!; [done|done|by simpl; rewrite Hc|by apply is_tier_spec].
  - destruct (regexp_exec r) as [[p t]|] eqn:He; simpl; [|done].
    intros [= <- <-]. destruct (IH p eq_refl) as (-> & ? & Hp & ?).
    split_and!; [done|done|by simpl; rewrite Hc, Hp|done].
Qed.

Lemma regexp_exec_complete key prefix tierRaw :
  matches_pattern key prefix tierRaw → regexp_exec key = Some (prefix, tierRaw).
Proof.
  intros (-> & Hne & Hp & Ht%is_tier_spec).
  induction prefix as [|c p IH]; [done|]. clear Hne.
  simpl in Hp. apply andb_true_iff in Hp as [Hc Hp].
  simpl. rewrite Hc. destruct (is_tier (p +:+ tierRaw)) eqn:Hpt.
  - apply is_tier_length in Hpt. apply is_tier_length in Ht.
    rewrite string_length_app, Ht in Hpt.
    destruct p; [done|simpl in Hpt; lia].
  - destruct p as [|c' p'].
    + change (is_tier tierRaw = false) in Hpt. congruence.
    + rewrite IH by done. done.
Qed.

Lemma regexp_exec_spec key prefix tierRaw :
  regexp_exec key = Some (prefix, tierRaw) ↔ matches_pattern key prefix tierRaw.
Proof. split; [apply regexp_exec_sound|apply regexp_exec_complete]. Qed.

Lemma regexp_exec_not_hour key prefix tierRaw :
  regexp_exec key = Some (prefix, tierRaw) → String.eqb key "hour" = false.
Proof.
  intros H. apply String.eqb_neq. intros ->. vm_compute in H. done.
Qed.

(** ** Loops that may throw *)

Section for_of.
Context {S B : Type} (body : S → B → result S).

Lemma for_of_app l1 l2 s :
  for_of body (l1 ++ l2) s = (s' ← for_of body l1 s; for_of body l2 s').
Proof.
  revert s; induction l1 as [|b l1 IH]; intros s; simpl; [done|].
  destruct (body s b); simpl; [apply IH|done].
Qed.

(** A property that every round keeps holds when the loop ends. *)
Lemma for_of_invariant (P : S → Prop) l s s' :
  (∀ s b s', P s → body s b = Ok s' → P s') →
  P s → for_of body l s = Ok s' → P s'.
Proof.
  intros Hbody. revert s; induction l as [|b l IH]; intros s Hs; simpl.
  - by intros [= <-].
  - destruct (body s b) as [s1|] eqn:Hb; simpl; [|done]. eauto.
Qed.

(** A round that throws from every state makes the loop throw. *)
Lemma for_of_throws l b s :
  (∀ s, is_Err (body s b)) → b ∈ l → is_Err (for_of body l s).
Proof.
  intros Hb. revert s; induction l as [|b' l IH]; intros s Hin.
  - by apply elem_of_nil in Hin.
  - simpl. apply elem_of_cons in Hin as [<- | Hin].
    + destruct (Hb s) as [e ->]. by exists e.
    + destruct (body s b') as [s1|e]; simpl; [by apply IH|by exists e].
Qed.

(** A round that changes nothing can be left out. *)
Lemma for_of_skip l1 l2 b s :
  (∀ s, body s b = Ok s) →
  for_of body (l1 ++ b :: l2) s = for_of body (l1 ++ l2) s.
Proof.
  intros Hb. rewrite !for_of_app. destruct (for_of body l1 s); simpl; [|done].
  by rewrite Hb.
Qed.
End for_of.

(** ** The seeded schedule *)

Lemma seed_eq : seed = Ok seeded.
Proof. reflexivity. Qed.

Lemma mapIds_values : Object_values prefixToMapId = JString <$> mapIds.
Proof. reflexivity. Qed.

Lemma seeded_well_seeded : well_seeded seeded.
Proof.
  split.
  - unfold seeded, mapIds. rewrite !dom_insert_L, dom_empty_L. set_solver.
  - intros id ts. unfold seeded.
    rewrite !lookup_insert, lookup_empty.
    repeat case_decide; try done; intros [= <-]; split; by eexists.
Qed.

Lemma assign_well_seeded s mapId tier hour slug s' :
  well_seeded s → assign s mapId tier hour slug = Ok s' → well_seeded s'.
Proof.
  intros [Hdom Hts]. unfold assign.
  destruct (String_value mapId) as [key|]; simpl; [|done].
  destruct (s !! key) as [ts|] eqn:Hkey; [|done].
  destruct (ts !! tier) as [b|] eqn:Htier; [|done].
  intros [= <-]. split.
  - rewrite dom_insert_L, <- Hdom.
    apply subseteq_union_1_L, singleton_subseteq_l, elem_of_dom. eauto.
  - intros id ts'. rewrite lookup_insert. case_decide as Hid; [|by apply Hts].
    intros [= <-]. destruct (Hts _ _ Hkey) as [Hmajor Hminor].
    rewrite !lookup_insert_is_Some. split; destruct (decide (tier = "major"));
      destruct (decide (tier = "minor")); auto.
Qed.

Lemma process_field_well_seeded eventTypes hour s field s' :
  well_seeded s → process_field eventTypes hour s field = Ok s' → well_seeded s'.
Proof.
  intros Hs. destruct field as [key rawName]. unfold process_field.
  destruct (String.eqb key "hour"); [by intros [= <-]|].
  destruct (regexp_exec key) as [[prefix tierRaw]|]; [|by intros [= <-]].
  destruct (negb (truthy (read prefixToMapId prefix))); [done|].
  destruct (eventName_of rawName) as [eventName|]; simpl; [|done].
  destruct (no_event eventName); [by intros [= <-]|].
  destruct (negb (truthy (read eventTypes (slugify eventName)))); [done|].
  by apply assign_well_seeded.
Qed.

Lemma process_entry_well_seeded eventTypes s entry s' :
  well_seeded s → process_entry eventTypes s entry = Ok s' → well_seeded s'.
Proof.
  intros Hs. unfold process_entry.
  destruct entry as [| | | | |props]; try by intros [= <-].
  destruct (read props "hour") as [|[| |hour| | |]| |]; try by intros [= <-].
  apply for_of_invariant; [|done]. intros ???. apply process_field_well_seeded.
Qed.

Lemma buildSchedule_well_seeded fullRotation eventTypes s :
  buildSchedule fullRotation eventTypes = Ok s → well_seeded s.
Proof.
  unfold buildSchedule. rewrite seed_eq. simpl.
  apply for_of_invariant; [|apply seeded_well_seeded].
  intros ???. apply process_entry_well_seeded.
Qed.

(** C1. Whenever buildSchedule returns a schedule, every location
    identifier of the prefix table is one of its keys, with a major and a
    minor bucket; on the empty rotation list it returns the schedule in
    which these buckets are empty. *)
Theorem buildSchedule_seeds_every_map fullRotation eventTypes s :
  buildSchedule fullRotation eventTypes = Ok s →
  (∀ mapId, JString mapId ∈ Object_values prefixToMapId →
     ∃ ts major minor, s !! mapId = Some ts
       ∧ ts !! "major" = Some major ∧ ts !! "minor" = Some minor)
  ∧ buildSchedule [] eventTypes = Ok seeded.
Proof.
  intros [Hdom Hts]%buildSchedule_well_seeded. split; [|reflexivity].
  intros mapId Hin. rewrite mapIds_values in Hin.
  apply list_elem_of_fmap in Hin as (id & [= <-] & Hin).
  assert (mapId ∈ dom s) as [ts Hlook]%elem_of_dom
    by (rewrite Hdom; by apply elem_of_list_to_set).
  destruct (Hts _ _ Hlook) as [[major ?] [minor ?]]. by exists ts, major, minor.
Qed.

Lemma buildSchedule_seeds_every_map_witness :
  ∃ s, buildSchedule [hour_5_ambush] [("ambush", JObject [])] = Ok s
       ∧ ∃ ts major minor, s !! "the-spaceport" = Some ts
           ∧ ts !! "major" = Some major ∧ ts !! "minor" = Some minor.
Proof.
  eexists. split; [reflexivity|].
  refine (proj1 (buildSchedule_seeds_every_map [hour_5_ambush]
                   [("ambush", JObject [])] _ eq_refl) "the-spaceport" _).
  unfold Object_values, prefixToMapId. simpl. repeat constructor.
Defined.

(** C10. Whenever buildSchedule returns a schedule, its keys are exactly
    the five location identifiers of the prefix table. *)
Theorem buildSchedule_keys fullRotation eventTypes s :
  buildSchedule fullRotation eventTypes = Ok s →
  dom s = ({[ "dam-battleground"; "buried-city"; "the-spaceport"; "blue-gate";
              "stella-montis" ]} : gset string)
  ∧ ∀ mapId, mapId ∈ dom s ↔ JString mapId ∈ Object_values prefixToMapId.
Proof.
  intros [Hdom _]%buildSchedule_well_seeded. rewrite Hdom. split.
  - unfold mapIds. set_solver.
  - intros mapId. rewrite mapIds_values, elem_of_list_to_set. split.
    + intros. apply list_elem_of_fmap. eauto.
    + intros (id & [= <-] & Hin)%list_elem_of_fmap. done.
Qed.

Lemma buildSchedule_keys_witness :
  ∃ s, buildSchedule [hour_5_ambush] [("ambush", JObject [])] = Ok s
       ∧ dom s = ({[ "dam-battleground"; "buried-city"; "the-spaceport";
                     "blue-gate"; "stella-montis" ]} : gset string).
Proof.
  eexists. split; [reflexivity|].
  exact (proj1 (buildSchedule_keys [hour_5_ambush] [("ambush", JObject [])] _ eq_refl)).
Defined.

(** ** The rounds of buildSchedule *)

Lemma buildSchedule_unfold fullRotation eventTypes :
  buildSchedule fullRotation eventTypes
  = for_of (process_entry eventTypes) fullRotation seeded.
Proof. reflexivity. Qed.

Lemma process_entry_object eventTypes s props hour :
  read props "hour" = Json (JNumber hour) →
  process_entry eventTypes s (JObject props)
  = for_of (process_field eventTypes hour) props s.
Proof. intros H. unfold process_entry. by rewrite H. Qed.

Lemma typeof_number v : typeof v = "number" ↔ ∃ x, v = Json (JNumber x).
Proof.
  split; [|by intros [x ->]].
  destruct v as [|[]| |]; simpl; try done. eauto.
Qed.

(** Every identifier of the prefix table is a non-empty string. *)
Lemma prefixToMapId_truthy prefix mapId :
  own_property prefixToMapId prefix = Some mapId → truthy_json mapId = true.
Proof.
  unfold prefixToMapId. simpl.
  repeat (case_match; [by intros [= <-]|]). done.
Qed.

Lemma prefixToMapId_mapIds prefix mapId :
  own_property prefixToMapId prefix = Some mapId →
  ∃ id, mapId = JString id ∧ id ∈ mapIds.
Proof.
  unfold prefixToMapId, mapIds. simpl.
  repeat (case_match; [intros [= <-]; eexists; split; [done|set_solver]|]). done.
Qed.

Lemma truthy_record props : truthy_json (JObject props) = true.
Proof. reflexivity. Qed.

Lemma process_field_hour eventTypes hour s rawName :
  process_field eventTypes hour s ("hour", rawName) = Ok s.
Proof. reflexivity. Qed.

Lemma process_field_unmatched eventTypes hour s key rawName :
  regexp_exec key = None → process_field eventTypes hour s (key, rawName) = Ok s.
Proof. intros H. unfold process_field. rewrite H. by destruct (String.eqb key "hour"). Qed.

(** A field that passes every test is assigned to its slot. *)
Lemma process_field_assign eventTypes hour s key rawName prefix tierRaw mapId name :
  regexp_exec key = Some (prefix, tierRaw) →
  own_property prefixToMapId prefix = Some mapId →
  eventName_of rawName = Ok name → no_event name = false →
  truthy (read eventTypes (slugify name)) = true →
  process_field eventTypes hour s (key, rawName)
  = assign s (Json mapId) (toLowerCase tierRaw) (Number_toString hour) (slugify name).
Proof.
  intros Hkey Hprefix Hname Hevent Hslug. unfold process_field.
  rewrite (regexp_exec_not_hour _ _ _ Hkey), Hkey.
  assert (read prefixToMapId prefix = Json mapId) as ->
    by (unfold read; by rewrite Hprefix).
  simpl truthy. rewrite (prefixToMapId_truthy _ _ Hprefix). simpl.
  rewrite Hname. simpl. rewrite Hevent, Hslug. done.
Qed.

(** C2. For the rotation list whose only entry is [{hour: 5,
    buriedCityMinor: Ambush}] and every catalog that has the key [ambush]
    with a truthy definition (every record is truthy), buildSchedule
    returns a schedule whose slot [buried-city / minor / 5] is
    [ambush]. *)
Theorem buildSchedule_hour_5_ambush eventTypes definition :
  own_property eventTypes "ambush" = Some definition →
  truthy_json definition = true →
  ∃ s, buildSchedule [hour_5_ambush] eventTypes = Ok s
       ∧ slot s "buried-city" "minor" "5" = Some "ambush".
Proof.
  intros Hown Htrue. rewrite buildSchedule_unfold. unfold hour_5_ambush.
  cbn [for_of]. rewrite (process_entry_object _ _ _ (number_of_Z 5)) by reflexivity.
  cbn [for_of]. rewrite process_field_hour. cbn [mbind result_bind].
  rewrite (process_field_assign _ _ _ _ _ "buriedCity" "Minor"
             (JString "buried-city") "Ambush"); try reflexivity.
  - eexists. split; [reflexivity|]. vm_compute. reflexivity.
  - change (slugify "Ambush") with "ambush". unfold read. by rewrite Hown.
Qed.

Lemma buildSchedule_hour_5_ambush_witness :
  ∃ s, buildSchedule [hour_5_ambush] [("ambush", JObject [("icon", JString "a.png")])]
       = Ok s
       ∧ slot s "buried-city" "minor" "5" = Some "ambush".
Proof.
  apply (buildSchedule_hour_5_ambush
           [("ambush", JObject [("icon", JString "a.png")])]
           (JObject [("icon", JString "a.png")])); reflexivity.
Defined.

Lemma own_property_app_ne {A} (l1 l2 : list (string * A)) k k' v :
  k ≠ k' → own_property (l1 ++ (k', v) :: l2) k = own_property (l1 ++ l2) k.
Proof.
  intros Hne. induction l1 as [|[k1 v1] l1 IH]; simpl.
  - by apply String.eqb_neq in Hne as ->.
  - by rewrite IH.
Qed.

Lemma read_app_ne (l1 l2 : object) k k' v :
  k ≠ k' → read (l1 ++ (k', v) :: l2) k = read (l1 ++ l2) k.
Proof. intros. unfold read. by rewrite own_property_app_ne. Qed.

(** A field that throws from every schedule makes buildSchedule throw,
    wherever it stands in an entry whose hour is a number. *)
Lemma field_throws_buildSchedule eventTypes fullRotation props hour field :
  (∀ s, is_Err (process_field eventTypes hour s field)) →
  JObject props ∈ fullRotation → read props "hour" = Json (JNumber hour) →
  field ∈ props →
  is_Err (buildSchedule fullRotation eventTypes).
Proof.
  intros Hfield Hentry Hhour Hin. rewrite buildSchedule_unfold.
  apply for_of_throws with (b := JObject props); [|done].
  intros s. rewrite (process_entry_object _ _ _ hour) by done.
  by apply for_of_throws with (b := field).
Qed.

(** A field that is skipped can be taken out of its entry. *)
Lemma field_skipped_buildSchedule eventTypes hour key rawName before after s :
  key ≠ "hour" → read (before ++ after) "hour" = Json (JNumber hour) →
  skips_field eventTypes hour (key, rawName) →
  process_entry eventTypes s (JObject (before ++ (key, rawName) :: after))
  = process_entry eventTypes s (JObject (before ++ after)).
Proof.
  intros Hkey Hhour Hskip.
  rewrite !(process_entry_object _ _ _ hour); [|done|].
  - by apply for_of_skip.
  - rewrite read_app_ne; [done|]. by intros <-.
Qed.

Example entry_not_a_record :
  process_entry ambush_catalog seeded JNull
  = Err (TypeError "Cannot read properties of null (reading 'hour')")
  ∧ process_entry ambush_catalog seeded (JString "hour") = Ok seeded
  ∧ process_entry ambush_catalog seeded (JArray [JNumber (number_of_Z 1)]) = Ok seeded.
Proof. split_and!; reflexivity. Qed.

(** C4, as the code has it. For every rotation entry, a record, whose hour
    is not a number ([typeof] differs from [number]: no hour, [null], a
    string, a boolean, an array, a record), buildSchedule skips the entry:
    its round changes no slot and throws nothing, and the result is what
    it is for the rotation list without the entry. *)
Theorem non_number_hour_skipped eventTypes props :
  typeof (hour_of (JObject props)) ≠ "number" →
  skips_entry eventTypes (JObject props)
  ∧ ∀ before after,
      buildSchedule (before ++ JObject props :: after) eventTypes
      = buildSchedule (before ++ after) eventTypes.
Proof.
  intros Htype.
  assert (skips_entry eventTypes (JObject props)) as Hskip.
  { intros s. unfold process_entry. simpl in Htype.
    destruct (read props "hour") as [|[| |hour| | |]| |]; try done. }
  split; [done|]. intros before after. rewrite !buildSchedule_unfold.
  by apply for_of_skip.
Qed.

Lemma non_number_hour_skipped_witness :
  skips_entry ambush_catalog
    (JObject [("hour", JString "5"); ("damMajor", JString "Ambush")])
  ∧ ∀ before after,
      buildSchedule (before ++ JObject [("hour", JString "5"); ("damMajor", JString "Ambush")]
                            :: after) ambush_catalog
      = buildSchedule (before ++ after) ambush_catalog.
Proof.
  apply (non_number_hour_skipped ambush_catalog
           [("hour", JString "5"); ("damMajor", JString "Ambush")]).
  simpl. discriminate.
Defined.

(** C4, as stated, fails: the hour 0.5 is not an integer, and yet the
    entry [{hour: 0.5, damMajor: Ambush}] is not skipped; its field fills
    the slot [dam-battleground / major / 0.5]. *)
Lemma non_integer_hour_not_skipped :
  integer_hour half_hour_entry = false
  ∧ ¬ skips_entry ambush_catalog half_hour_entry
  ∧ ∃ s, buildSchedule [half_hour_entry] ambush_catalog = Ok s
         ∧ slot s "dam-battleground" "major" "0.5" = Some "ambush"
         ∧ slot seeded "dam-battleground" "major" "0.5" = None.
Proof.
  split_and!.
  - reflexivity.
  - intros Hskip.
    pose proof (f_equal (λ r, s ← result_slots r; slot s "dam-battleground" "major" "0.5")
                  (Hskip seeded)) as Hslot.
    vm_compute in Hslot. discriminate Hslot.
  - eexists. split_and!; [reflexivity|..]; vm_compute; reflexivity.
Qed.

(** ** Fields without an event *)

Lemma no_event_spec name :
  no_event name = true ↔ name = "" ∨ toLowerCase name = "none".
Proof. unfold no_event. by rewrite orb_true_iff, !String.eqb_eq. Qed.

Lemma process_field_no_event eventTypes hour s key rawName prefix tierRaw name :
  regexp_exec key = Some (prefix, tierRaw) →
  is_Some (own_property prefixToMapId prefix) →
  eventName_of rawName = Ok name → no_event name = true →
  process_field eventTypes hour s (key, rawName) = Ok s.
Proof.
  intros Hkey [mapId Hprefix] Hname Hevent. unfold process_field.
  rewrite (regexp_exec_not_hour _ _ _ Hkey), Hkey.
  assert (read prefixToMapId prefix = Json mapId) as ->
    by (unfold read; by rewrite Hprefix).
  simpl truthy. rewrite (prefixToMapId_truthy _ _ Hprefix). simpl.
  rewrite Hname. simpl. by rewrite Hevent.
Qed.

(** C6, as the code has it. For every field whose name matches the
    pattern, whose prefix is in the prefix table and whose event name (the
    trimmed value when the value is a string, the string of the value
    otherwise, empty for a falsy value) is empty or equals [none] whatever
    the case of its letters, buildSchedule records no slot and throws
    nothing: the round of the field changes no schedule, and the entry
    gives what it gives without the field.  The entry [{hour: 3,
    damMajor: None}] leaves the slot [dam-battleground / major / 3]
    empty. *)
Theorem no_event_field_skipped eventTypes hour key rawName prefix tierRaw name :
  matches_pattern key prefix tierRaw →
  is_Some (own_property prefixToMapId prefix) →
  eventName_of rawName = Ok name →
  name = "" ∨ toLowerCase name = "none" →
  skips_field eventTypes hour (key, rawName)
  ∧ (∀ before after s,
       read (before ++ after) "hour" = Json (JNumber hour) →
       process_entry eventTypes s (JObject (before ++ (key, rawName) :: after))
       = process_entry eventTypes s (JObject (before ++ after)))
  ∧ ∃ s, buildSchedule [dam_none_entry] eventTypes = Ok s
         ∧ slot s "dam-battleground" "major" "3" = None.
Proof.
  intros Hkey%regexp_exec_complete Hprefix Hname Hevent%no_event_spec.
  assert (skips_field eventTypes hour (key, rawName)) as Hskip
    by (intros s; by eapply process_field_no_event).
  split_and!; [done| |].
  - intros before after s Hhour. apply field_skipped_buildSchedule with (hour := hour); [|done..].
    apply String.eqb_neq. by eapply regexp_exec_not_hour.
  - exists seeded. split; [|reflexivity].
    rewrite buildSchedule_unfold. unfold dam_none_entry. cbn [for_of].
    rewrite (process_entry_object _ _ _ (number_of_Z 3)) by reflexivity.
    cbn [for_of]. rewrite process_field_hour. cbn [mbind result_bind].
    rewrite (process_field_no_event _ _ _ _ _ "dam" "Major" "None"); try reflexivity.
    by eexists.
Qed.

Lemma no_event_field_skipped_witness :
  skips_field ambush_catalog (number_of_Z 3) ("damMajor", JString "  NONE ")
  ∧ (∀ before after s,
       read (before ++ after) "hour" = Json (JNumber (number_of_Z 3)) →
       process_entry ambush_catalog s
         (JObject (before ++ ("damMajor", JString "  NONE ") :: after))
       = process_entry ambush_catalog s (JObject (before ++ after)))
  ∧ ∃ s, buildSchedule [dam_none_entry] ambush_catalog = Ok s
         ∧ slot s "dam-battleground" "major" "3" = None.
Proof.
  apply (no_event_field_skipped ambush_catalog (number_of_Z 3) "damMajor"
           (JString "  NONE ") "dam" "Major" "NONE").
  - unfold matches_pattern. split_and!; [reflexivity|discriminate|reflexivity|by right].
  - simpl. by eexists.
  - reflexivity.
  - right. reflexivity.
Defined.

(** C6, as stated, fails: the name [zooMajor] matches the pattern and the
    value [None] is [none] up to case, and yet buildSchedule throws on
    [{hour: 3, zooMajor: None}], because the prefix is looked up before
    the value is.  Nor is a value trimmed that is not a string: the array
    of the one string [none] between spaces has a trimmed string form
    equal to [none], and buildSchedule looks its slug up in the catalog
    and throws. *)
Lemma no_event_unknown_prefix_throws :
  matches_pattern "zooMajor" "zoo" "Major"
  ∧ eventName_of (JString "None") = Ok "None"
  ∧ toLowerCase "None" = "none"
  ∧ ¬ skips_field ambush_catalog (number_of_Z 3) ("zooMajor", JString "None")
  ∧ buildSchedule [zoo_none_entry] ambush_catalog = Err (UnexpectedMapPrefix "zoo")
  ∧ (s ← String_json (JArray [JString " none "]); Ok (toLowerCase (trim s)))
    = Ok "none"
  ∧ buildSchedule [dam_array_entry] ambush_catalog
    = Err (MissingEventType " none " "none").
Proof.
  split_and!; try reflexivity.
  - unfold matches_pattern. split_and!; [reflexivity|discriminate|reflexivity|by right].
  - intros Hskip. specialize (Hskip seeded). vm_compute in Hskip. discriminate Hskip.
Qed.

(** ** Fields that throw *)

(** A prefix that the table does not have and that [Object.prototype]
    does not define is rejected. *)
Lemma process_field_unknown_prefix eventTypes hour s key rawName prefix tierRaw :
  regexp_exec key = Some (prefix, tierRaw) →
  own_property prefixToMapId prefix = None →
  Object_prototype prefix = Undefined →
  process_field eventTypes hour s (key, rawName) = Err (UnexpectedMapPrefix prefix).
Proof.
  intros Hkey Hprefix Hproto. unfold process_field.
  rewrite (regexp_exec_not_hour _ _ _ Hkey), Hkey.
  unfold read. by rewrite Hprefix, Hproto.
Qed.

Lemma unknown_prefix_throws eventTypes fullRotation props hour key rawName prefix tierRaw :
  matches_pattern key prefix tierRaw →
  own_property prefixToMapId prefix = None →
  Object_prototype prefix = Undefined →
  JObject props ∈ fullRotation → read props "hour" = Json (JNumber hour) →
  (key, rawName) ∈ props →
  is_Err (buildSchedule fullRotation eventTypes).
Proof.
  intros Hkey%regexp_exec_complete Hprefix Hproto. intros.
  eapply field_throws_buildSchedule; [|done..].
  intros s. eexists. by eapply process_field_unknown_prefix.
Qed.

(** The catalog test of a field that has reached it. *)
Lemma process_field_catalog eventTypes hour s key rawName prefix tierRaw name :
  regexp_exec key = Some (prefix, tierRaw) →
  is_Some (own_property prefixToMapId prefix) →
  eventName_of rawName = Ok name → no_event name = false →
  truthy (read eventTypes (slugify name)) = false →
  process_field eventTypes hour s (key, rawName)
  = Err (MissingEventType name (slugify name)).
Proof.
  intros Hkey [mapId Hprefix] Hname Hevent Hslug. unfold process_field.
  rewrite (regexp_exec_not_hour _ _ _ Hkey), Hkey.
  assert (read prefixToMapId prefix = Json mapId) as ->
    by (unfold read; by rewrite Hprefix).
  simpl truthy. rewrite (prefixToMapId_truthy _ _ Hprefix). simpl.
  rewrite Hname. simpl. by rewrite Hevent, Hslug.
Qed.

(** Of the names that [Object.prototype] defines, a slug can only be
    [constructor]: the others have a capital letter or an underscore. *)
Lemma Object_prototype_slug name :
  slugify name ≠ "constructor" → Object_prototype (slugify name) = Undefined.
Proof.
  intros Hne. pose proof (slugify_shaped name) as Hshape.
  unfold Object_prototype.
  destruct (String.eqb_spec (slugify name) "constructor") as [|_]; [done|].
  destruct (String.eqb_spec (slugify name) "__proto__") as [Heq|_].
  { rewrite Heq in Hshape. simpl in Hshape. by destruct Hshape. }
  case_bool_decide as Hin; [|done].
  unfold Object_prototype_functions in Hin.
  repeat (apply elem_of_cons in Hin as [Heq | Hin];
          [rewrite Heq in Hshape; simpl in Hshape;
           destruct Hshape as [Hc _]; discriminate Hc|]).
  by apply elem_of_nil in Hin.
Qed.

(** An event whose slug the catalog does not have is rejected, unless
    the slug is [constructor]. *)
Lemma missing_slug_throws eventTypes fullRotation props hour key rawName prefix tierRaw name :
  matches_pattern key prefix tierRaw →
  is_Some (own_property prefixToMapId prefix) →
  eventName_of rawName = Ok name → no_event name = false →
  own_property eventTypes (slugify name) = None →
  slugify name ≠ "constructor" →
  (∀ s, process_field eventTypes hour s (key, rawName)
        = Err (MissingEventType name (slugify name)))
  ∧ (JObject props ∈ fullRotation → read props "hour" = Json (JNumber hour) →
     (key, rawName) ∈ props → is_Err (buildSchedule fullRotation eventTypes)).
Proof.
  intros Hkey%regexp_exec_complete Hprefix Hname Hevent Hown Hne.
  assert (∀ s, process_field eventTypes hour s (key, rawName)
               = Err (MissingEventType name (slugify name))) as Hthrow.
  { intros s. eapply process_field_catalog; [done..|].
    unfold read. by rewrite Hown, Object_prototype_slug. }
  split; [done|]. intros. eapply field_throws_buildSchedule; [|done..].
  intros s. eexists. apply Hthrow.
Qed.

(** C7, at the failing input. The name [constructorMajor] matches the
    pattern and its prefix [constructor] is not in the prefix table, and
    yet buildSchedule does not reject it: reading the table finds the
    function that every object inherits under this name.  With a value
    without event the run succeeds; with an event of the catalog it ends
    in a type error, not in the error of the unexpected prefix. *)
Theorem inherited_prefix_not_rejected :
  matches_pattern "constructorMajor" "constructor" "Major"
  ∧ own_property prefixToMapId "constructor" = None
  ∧ read prefixToMapId "constructor" = Builtin "Object"
  ∧ buildSchedule [constructor_prefix_entry] ambush_catalog = Ok seeded
  ∧ buildSchedule [toString_prefix_entry] ambush_catalog
    = Err (TypeError "Cannot read properties of undefined").
Proof.
  split_and!; try reflexivity.
  unfold matches_pattern. split_and!; [reflexivity|discriminate|reflexivity|by right].
Qed.

(** C8, at the failing input. The field [damMajor] has a prefix of the
    table and the value [Constructor], whose slug [constructor] is not a
    key of the catalog, and yet buildSchedule does not throw: reading the
    catalog finds the function that every object inherits under this
    name, and the slot is filled. *)
Theorem inherited_slug_not_rejected :
  matches_pattern "damMajor" "dam" "Major"
  ∧ slugify "Constructor" = "constructor"
  ∧ own_property ambush_catalog "constructor" = None
  ∧ read ambush_catalog "constructor" = Builtin "Object"
  ∧ ∃ s, buildSchedule [constructor_event_entry] ambush_catalog = Ok s
         ∧ slot s "dam-battleground" "major" "1" = Some "constructor".
Proof.
  split_and!; try reflexivity.
  - unfold matches_pattern. split_and!; [reflexivity|discriminate|reflexivity|by right].
  - eexists. split; [reflexivity|]. vm_compute. reflexivity.
Qed.

(** C9. The catalog test is one of truthiness: when the slug of a field
    that reaches the test is a key of the catalog with a falsy value
    ([null], [false], [0], the empty string), buildSchedule throws the
    error of the missing event type.  The round of the field throws it
    from every schedule, so every rotation list that holds the field in
    an entry with a number for hour makes buildSchedule throw, and the
    list of that one field makes it throw this error. *)
Theorem falsy_definition_throws eventTypes hour key rawName prefix tierRaw name definition :
  matches_pattern key prefix tierRaw →
  is_Some (own_property prefixToMapId prefix) →
  eventName_of rawName = Ok name → no_event name = false →
  own_property eventTypes (slugify name) = Some definition →
  truthy_json definition = false →
  (∀ s, process_field eventTypes hour s (key, rawName)
        = Err (MissingEventType name (slugify name)))
  ∧ (∀ fullRotation props,
       JObject props ∈ fullRotation → read props "hour" = Json (JNumber hour) →
       (key, rawName) ∈ props → is_Err (buildSchedule fullRotation eventTypes))
  ∧ buildSchedule [JObject [("hour", JNumber hour); (key, rawName)]] eventTypes
    = Err (MissingEventType name (slugify name)).
Proof.
  intros Hkey%regexp_exec_complete Hprefix Hname Hevent Hown Hfalsy.
  assert (∀ s, process_field eventTypes hour s (key, rawName)
               = Err (MissingEventType name (slugify name))) as Hthrow.
  { intros s. eapply process_field_catalog; [done..|].
    unfold read. by rewrite Hown. }
  split_and!; [done| |].
  - intros. eapply field_throws_buildSchedule; [|done..].
    intros s. eexists. apply Hthrow.
  - rewrite buildSchedule_unfold. cbn [for_of].
    rewrite (process_entry_object _ _ _ hour) by reflexivity.
    cbn [for_of]. rewrite process_field_hour. cbn [mbind result_bind].
    by rewrite Hthrow.
Qed.

Lemma falsy_definition_throws_witness :
  (∀ s, process_field null_catalog (number_of_Z 2) s ("damMinor", JString "Ambush")
        = Err (MissingEventType "Ambush" "ambush"))
  ∧ (∀ fullRotation props,
       JObject props ∈ fullRotation →
       read props "hour" = Json (JNumber (number_of_Z 2)) →
       ("damMinor", JString "Ambush") ∈ props →
       is_Err (buildSchedule fullRotation null_catalog))
  ∧ buildSchedule [dam_ambush_entry] null_catalog
    = Err (MissingEventType "Ambush" "ambush").
Proof.
  apply (falsy_definition_throws null_catalog (number_of_Z 2) "damMinor"
           (JString "Ambush") "dam" "Minor" "Ambush" JNull).
  - unfold matches_pattern. split_and!; [reflexivity|discriminate|reflexivity|by left].
  - simpl. by eexists.
  - reflexivity.
  - reflexivity.
  - reflexivity.
  - reflexivity.
Defined.

Example falsy_definitions :
  buildSchedule [dam_ambush_entry] [("ambush", JBool false)]
  = Err (MissingEventType "Ambush" "ambush")
  ∧ buildSchedule [dam_ambush_entry] [("ambush", JNumber (Zero false))]
    = Err (MissingEventType "Ambush" "ambush")
  ∧ buildSchedule [dam_ambush_entry] [("ambush", JString "")]
    = Err (MissingEventType "Ambush" "ambush")
  ∧ ∃ s, buildSchedule [dam_ambush_entry] [("ambush", JObject [])] = Ok s.
Proof. split_and!; try reflexivity. by eexists. Qed.

(** ** mergeEventLocalizations *)



(** Setting a property that the object owns keeps the keys and their
    order. *)
Lemma set_property_app k v c (o1 o2 : object) :
  k ∉ Object_keys o1 →
  set_property k v (o1 ++ (k, c) :: o2) = o1 ++ (k, v) :: o2.
Proof.
  unfold Object_keys. induction o1 as [|[k1 v1] o1 IH]; simpl; intros Hnotin.
  - by rewrite String.eqb_refl.
  - apply not_elem_of_cons in Hnotin as [Hne%String.eqb_neq Hnotin].
    by rewrite Hne, IH.
Qed.

Lemma own_property_merged (f : string → json → json) (o : object) k :
  own_property ((λ e, (e.1, f e.1 e.2)) <$> o) k = f k <$> own_property o k.
Proof.
  induction o as [|[k' v'] o IH]; simpl; [done|].
  destruct (String.eqb k k') eqn:Hk; [|done].
  by apply String.eqb_eq in Hk as ->.
Qed.

(** The test of the loop body, in the words of the specification. *)
Lemma merge_entry_carried remoteEventTypes next slug config :
  merge_entry remoteEventTypes next (slug, config)
  = match carried_localizations remoteEventTypes slug with
    | Some _ => set_property slug (merged remoteEventTypes slug config) next
    | None => next
    end.
Proof.
  unfold merge_entry, merged, remote_localizations, carried_localizations, read.
  destruct (own_property remoteEventTypes slug) as [[| | | | |props]|]; try done.
  - destruct (own_property props "localizations") as [[|[]|[| | |]| | |]|]; try done.
    simpl. by destruct (String.eqb s "").
  - unfold Object_prototype. by repeat case_match.
Qed.

Lemma merge_loop remoteEventTypes (done_ rest : object) :
  NoDup (Object_keys (done_ ++ rest)) →
  fold_left (merge_entry remoteEventTypes) rest (done_ ++ rest)
  = done_ ++ ((λ e, (e.1, merged remoteEventTypes e.1 e.2)) <$> rest).
Proof.
  revert done_. induction rest as [|[slug config] rest IH]; intros done_ Hnodup;
    [done|].
  assert (slug ∉ Object_keys done_) as Hfresh.
  { unfold Object_keys in *. rewrite fmap_app in Hnodup.
    apply NoDup_app in Hnodup as (_ & Hdisj & _).
    intros Hin. apply (Hdisj _ Hin). simpl. apply elem_of_cons. by left. }
  assert (merge_entry remoteEventTypes (done_ ++ (slug, config) :: rest) (slug, config)
          = (done_ ++ [(slug, merged remoteEventTypes slug config)]) ++ rest) as Hstep.
  { rewrite merge_entry_carried, <- (assoc_L (++)). simpl.
    destruct (carried_localizations remoteEventTypes slug) eqn:Hcarried;
      [by apply set_property_app|].
    unfold merged. by rewrite Hcarried. }
  cbn [fold_left]. rewrite Hstep, IH.
  - by rewrite <- (assoc_L (++)).
  - unfold Object_keys in *. rewrite <- (assoc_L (++)).
    by rewrite !fmap_app in *.
Qed.

Lemma mergeEventLocalizations_merged eventTypes remoteEventTypes :
  NoDup (Object_keys eventTypes) →
  mergeEventLocalizations eventTypes remoteEventTypes
  = (λ e, (e.1, merged remoteEventTypes e.1 e.2)) <$> eventTypes.
Proof. intros. by apply (merge_loop remoteEventTypes []). Qed.




(** * Further properties *)

(** ** The shape of a slug *)

Lemma drop_while_end_fixed_last p s r c :
  drop_while_end p s = s → p c = true → s ≠ r +:+ String c "".
Proof.
  intros Hfix Hc ->. revert Hfix. induction r as [|a r IH]; simpl.
  - by rewrite Hc.
  - destruct (drop_while_end p (r +:+ String c "")) as [|a' r'] eqn:Hr.
    + destruct r; destruct (p a); simpl; discriminate.
    + intros [= Heq]. apply IH. congruence.
Qed.

Lemma drop_while_end_no_last p s :
  (∀ r c, p c = true → s ≠ r +:+ String c "") → drop_while_end p s = s.
Proof.
  induction s as [|a s IH]; intros Hlast; [done|]. simpl. rewrite IH.
  - destruct s; [|done]. destruct (p a) eqn:Ha; [|done].
    by destruct (Hlast "" a Ha).
  - intros r c Hc ->. by apply (Hlast (String a r) c Hc).
Qed.

(** X1. A slug holds small letters, digits and single hyphens only, and
    neither starts nor ends with a hyphen. *)
Theorem slugify_range name :
  slug_shaped true (slugify name) ∧ ∀ r, slugify name ≠ r +:+ "-".
Proof.
  split; [apply slugify_shaped|]. intros r.
  apply (drop_while_end_fixed_last Char.is_hyphen); [|done].
  apply strip_hyphens_fixed.
Qed.

(** X2. The strings that slugify leaves as they are are exactly the
    strings of that shape. *)
Theorem slugify_fixed_points s :
  slugify s = s ↔ slug_shaped true s ∧ ∀ r, s ≠ r +:+ "-".
Proof.
  split.
  - intros <-. split; [apply slugify_shaped|]. intros r.
    apply (drop_while_end_fixed_last Char.is_hyphen); [|done].
    apply strip_hyphens_fixed.
  - intros [Hs Hlast]. unfold slugify, hyphenate.
    rewrite (slug_shaped_toLowerCase _ _ Hs), (slug_shaped_remove_quotes _ _ Hs).
    rewrite (slug_shaped_hyphenate false) by (by eapply slug_shaped_weaken).
    unfold strip_hyphens. rewrite drop_while_end_no_last.
    + by apply slug_shaped_drop_hyphens.
    + intros r c Hc%is_hyphen_spec. subst c. apply Hlast.
Qed.

Lemma toLowerCase_dotted c c2 r :
  (Char.code c =? 196)%N = true → (Char.code c2 =? 176)%N = true →
  toLowerCase (String c (String c2 r))
  = String "i" (String (ascii_of_N 204) (String (ascii_of_N 135) (toLowerCase r))).
Proof. intros H1 H2. cbn [toLowerCase]. by rewrite H1, H2. Qed.

Lemma toLowerCase_not_dotted c c2 r :
  (Char.code c =? 196)%N = true → (Char.code c2 =? 176)%N = false →
  toLowerCase (String c (String c2 r))
  = String (Char.to_lower c) (toLowerCase (String c2 r)).
Proof. intros H1 H2. cbn [toLowerCase]. by rewrite H1, H2. Qed.

Lemma toLowerCase_kelvin c c2 c3 r :
  (Char.code c =? 226)%N = true →
  ((Char.code c2 =? 132) && (Char.code c3 =? 170))%N = true →
  toLowerCase (String c (String c2 (String c3 r))) = String "k" (toLowerCase r).
Proof.
  intros H1 H2. cbn [toLowerCase]. rewrite H1, H2.
  by apply N.eqb_eq in H1 as ->.
Qed.

Lemma toLowerCase_not_kelvin c c2 c3 r :
  (Char.code c =? 226)%N = true →
  ((Char.code c2 =? 132) && (Char.code c3 =? 170))%N = false →
  toLowerCase (String c (String c2 (String c3 r)))
  = String (Char.to_lower c) (toLowerCase (String c2 (String c3 r))).
Proof.
  intros H1 H2. cbn [toLowerCase]. rewrite H1, H2.
  by apply N.eqb_eq in H1 as ->.
Qed.

Lemma continues_plain c :
  continues c = true →
  (Char.code c =? 196)%N = false ∧ (Char.code c =? 226)%N = false.
Proof.
  unfold continues. intros [_ Hc%N.ltb_lt]%andb_true_iff.
  split; apply N.eqb_neq; lia.
Qed.

Lemma append_cons c r b : String c r +:+ b = String c (r +:+ b).
Proof. reflexivity. Qed.

(** Lower-casing goes through a concatenation whose first part is made of
    whole characters. *)
Lemma toLowerCase_app a b :
  whole_characters a → toLowerCase (a +:+ b) = toLowerCase a +:+ toLowerCase b.
Proof.
  induction 1 as [|c r Hc _ IH|c c2 r Hc Hc2 _ IH|c c2 c3 r Hc Hc2 Hc3 _ IH
                  |c c2 c3 c4 r Hc Hc2 Hc3 Hc4 _ IH]; rewrite ?append_cons.
  - done.
  - destruct (ascii_plain c Hc). rewrite !toLowerCase_plain by done.
    rewrite ?append_cons. by rewrite IH.
  - destruct (continues_plain c2 Hc2).
    apply andb_true_iff in Hc as [_ Hc%N.ltb_lt].
    destruct (Char.code c =? 196)%N eqn:H196.
    + destruct (Char.code c2 =? 176)%N eqn:H176.
      * rewrite !toLowerCase_dotted by done. rewrite ?append_cons. by rewrite IH.
      * rewrite !toLowerCase_not_dotted, !(toLowerCase_plain c2) by done.
        rewrite ?append_cons. by rewrite IH.
    + assert ((Char.code c =? 226)%N = false) by (apply N.eqb_neq; lia).
      rewrite !(toLowerCase_plain c), !(toLowerCase_plain c2) by done.
      rewrite ?append_cons. by rewrite IH.
  - destruct (continues_plain c2 Hc2), (continues_plain c3 Hc3).
    apply andb_true_iff in Hc as [Hc _]. apply N.leb_le in Hc.
    assert ((Char.code c =? 196)%N = false) by (apply N.eqb_neq; lia).
    destruct (Char.code c =? 226)%N eqn:H226.
    + destruct ((Char.code c2 =? 132) && (Char.code c3 =? 170))%N eqn:Hk.
      * rewrite !toLowerCase_kelvin by done. by rewrite IH.
      * rewrite !toLowerCase_not_kelvin, !(toLowerCase_plain c2),
          !(toLowerCase_plain c3) by done.
        rewrite ?append_cons. by rewrite IH.
    + rewrite !(toLowerCase_plain c), !(toLowerCase_plain c2),
        !(toLowerCase_plain c3) by done.
      rewrite ?append_cons. by rewrite IH.
  - destruct (continues_plain c2 Hc2), (continues_plain c3 Hc3),
      (continues_plain c4 Hc4).
    apply N.leb_le in Hc.
    assert ((Char.code c =? 196)%N = false) by (apply N.eqb_neq; lia).
    assert ((Char.code c =? 226)%N = false) by (apply N.eqb_neq; lia).
    rewrite !(toLowerCase_plain c), !(toLowerCase_plain c2),
      !(toLowerCase_plain c3), !(toLowerCase_plain c4) by done.
    rewrite ?append_cons. by rewrite IH.
Qed.

Lemma remove_quotes_app a b :
  remove_quotes (a +:+ b) = remove_quotes a +:+ remove_quotes b.
Proof.
  induction a as [|c a IH]; simpl; [done|].
  destruct (Char.is_quote c); simpl; by rewrite IH.
Qed.

Lemma quote_lower c : Char.is_quote c = true → Char.is_quote (Char.to_lower c) = true.
Proof. destruct c as [[] [] [] [] [] [] [] []]; vm_compute; congruence. Qed.

Lemma quote_ascii c : Char.is_quote c = true → (Char.code c <? 128)%N = true.
Proof. destruct c as [[] [] [] [] [] [] [] []]; vm_compute; congruence. Qed.

(** X3. slugify drops a single or double quote wherever it stands between
    characters: the name with the quote and the name without it have the
    same slug. *)
Theorem slugify_ignores_quotes a c b :
  whole_characters a → Char.is_quote c = true →
  slugify (a +:+ String c b) = slugify (a +:+ b).
Proof.
  intros Ha Hc. unfold slugify. destruct (ascii_plain c (quote_ascii c Hc)).
  rewrite !toLowerCase_app, (toLowerCase_plain c), !remove_quotes_app by done.
  cbn [remove_quotes]. by rewrite (quote_lower c Hc).
Qed.

Lemma slugify_ignores_quotes_witness :
  slugify ("Dragon" +:+ String "'" "s Lair") = slugify ("Dragon" +:+ "s Lair").
Proof.
  apply (slugify_ignores_quotes "Dragon" "'" "s Lair"); [|reflexivity].
  repeat (apply whole_1; [reflexivity|]). apply whole_empty.
Defined.

(** ** The empty slug *)

Lemma has_slug_alnum_remove_quotes s :
  has_slug_alnum (remove_quotes s) = has_slug_alnum s.
Proof.
  induction s as [|c s IH]; simpl; [done|].
  destruct (Char.is_slug_alnum c) eqn:Hc.
  - by rewrite (slug_alnum_not_quote c Hc); simpl; rewrite Hc.
  - destruct (Char.is_quote c); simpl; by rewrite ?Hc.
Qed.

Lemma has_slug_alnum_hyphenate b s :
  has_slug_alnum (hyphenate_from b s) = has_slug_alnum s.
Proof.
  revert b; induction s as [|c s IH]; intros b; simpl; [done|].
  destruct (Char.is_slug_alnum c) eqn:Hc; simpl.
  - by rewrite Hc.
  - destruct b; simpl; by rewrite IH.
Qed.

Lemma has_slug_alnum_drop_while p s :
  (∀ c, p c = true → Char.is_slug_alnum c = false) →
  has_slug_alnum (drop_while p s) = has_slug_alnum s.
Proof.
  intros Hp. induction s as [|c s IH]; simpl; [done|].
  destruct (p c) eqn:Hc; [|done]. by rewrite (Hp c Hc).
Qed.

Lemma has_slug_alnum_drop_while_end p s :
  (∀ c, p c = true → Char.is_slug_alnum c = false) →
  has_slug_alnum (drop_while_end p s) = has_slug_alnum s.
Proof.
  intros Hp. induction s as [|c s IH]; simpl; [done|].
  destruct (drop_while_end p s) as [|c' s'] eqn:Hs.
  - rewrite <- IH. destruct (p c) eqn:Hc; simpl; [by rewrite (Hp c Hc)|done].
  - by rewrite <- IH.
Qed.

Lemma hyphen_not_slug_alnum c :
  Char.is_hyphen c = true → Char.is_slug_alnum c = false.
Proof. intros ->%is_hyphen_spec. reflexivity. Qed.

Lemma has_slug_alnum_slugify name : has_slug_alnum (slugify name) = has_alnum name.
Proof.
  unfold slugify, strip_hyphens, hyphenate, has_alnum.
  rewrite has_slug_alnum_drop_while, has_slug_alnum_drop_while_end
    by apply hyphen_not_slug_alnum.
  by rewrite has_slug_alnum_hyphenate, has_slug_alnum_remove_quotes.
Qed.

(** X4. The slug is empty exactly for the names whose lower case has no
    character of [[a-z0-9]]: the names without a letter of ASCII, a digit,
    KELVIN SIGN or LATIN CAPITAL LETTER I WITH DOT ABOVE. *)
Theorem slugify_empty name : slugify name = "" ↔ has_alnum name = false.
Proof.
  rewrite <- has_slug_alnum_slugify. split; [by intros ->|].
  pose proof (slugify_shaped name) as Hshape.
  destruct (slugify name) as [|c s]; [done|]. simpl in *.
  destruct (Char.is_slug_alnum c); [done|]. by destruct Hshape as (_ & ? & _).
Qed.

(** ** The keys of the hours *)

Lemma is_zero_digit_spec c : is_zero_digit c = true → c = "0"%char.
Proof. destruct c as [[] [] [] [] [] [] [] []]; vm_compute; congruence. Qed.

Lemma drop_while_end_length p s :
  (String.length (drop_while_end p s) ≤ String.length s)%nat.
Proof.
  induction s as [|c s IH]; simpl; [done|].
  destruct (drop_while_end p s); [destruct (p c)|]; simpl in *; lia.
Qed.

(** The final zeros that [drop_while_end] removes, put back. *)
Lemma drop_final_zeros s :
  drop_while_end is_zero_digit s
  +:+ zeros (String.length s - String.length (drop_while_end is_zero_digit s))
  = s.
Proof.
  induction s as [|c s IH]; simpl; [done|].
  destruct (drop_while_end is_zero_digit s) as [|c' s'] eqn:Hs.
  - change (zeros (String.length s - 0) = s) in IH. rewrite Nat.sub_0_r in IH.
    destruct (is_zero_digit c) eqn:Hc.
    + apply is_zero_digit_spec in Hc as ->.
      change (String "0" (zeros (String.length s)) = String "0" s). by rewrite IH.
    + change (String c (zeros (String.length s - 0)) = String c s).
      by rewrite Nat.sub_0_r, IH.
  - change (String c (String c' s' +:+ zeros (String.length s - String.length (String c' s')))
            = String c s). by rewrite IH.
Qed.

Lemma positive_toString_integer m :
  (String.length (pretty (N.pos m)) ≤ 21)%nat →
  positive_toString m 0 = pretty (N.pos m).
Proof.
  intros Hlen. unfold positive_toString.
  pose proof (drop_while_end_length is_zero_digit (pretty (N.pos m))) as Hk.
  rewrite Z.add_0_r.
  destruct (_ && _) eqn:Htest.
  - rewrite Nat2Z.id. apply drop_final_zeros.
  - apply andb_false_iff in Htest as [Htest | Htest].
    + apply Z.leb_gt in Htest. lia.
    + apply Z.leb_gt in Htest. lia.
Qed.

Lemma pretty_N_go_length k x s :
  (x < 10 ^ N.of_nat k)%N →
  (String.length (pretty_N_go x s) ≤ k + String.length s)%nat.
Proof.
  revert x s. induction k as [|k IH]; intros x s Hx.
  - assert (x = 0%N) as -> by (simpl in Hx; lia). by rewrite pretty_N_go_0.
  - destruct (decide (x = 0%N)) as [->|Hne]; [rewrite pretty_N_go_0; lia|].
    rewrite pretty_N_go_step by lia.
    rewrite Nat2N.inj_succ, N.pow_succ_r' in Hx.
    etrans; [apply IH|simpl; lia].
    apply N.Div0.div_lt_upper_bound. lia.
Qed.

Lemma safe_integer_digits m :
  (Z.pos m ≤ 2 ^ 53)%Z → (String.length (pretty (N.pos m)) ≤ 21)%nat.
Proof.
  intros Hm. unfold pretty, pretty_N. rewrite decide_False by done.
  etrans; [apply (pretty_N_go_length 16)|simpl; lia].
  change (10 ^ N.of_nat 16)%N with 10000000000000000%N. lia.
Qed.

(** X5. The key of a safe integer hour (one between [- 2 ^ 53] and
    [2 ^ 53]) is its decimal numeral, so two such hours have the same key
    only when they are equal. *)
Theorem integer_hour_key z :
  (Z.abs z ≤ 2 ^ 53)%Z →
  Number_toString (number_of_Z z) = pretty z
  ∧ ∀ z', (Z.abs z' ≤ 2 ^ 53)%Z →
          Number_toString (number_of_Z z) = Number_toString (number_of_Z z') →
          z = z'.
Proof.
  assert (∀ x, (Z.abs x ≤ 2 ^ 53)%Z →
               Number_toString (number_of_Z x) = pretty x) as Hkey.
  { intros [|m|m] Hsafe; [done|..]; simpl.
    - by apply positive_toString_integer, safe_integer_digits.
    - by rewrite positive_toString_integer by by apply safe_integer_digits. }
  intros Hz. split; [by apply Hkey|].
  intros z' Hz'. rewrite !Hkey by done. apply (inj pretty).
Qed.

Lemma integer_hour_key_witness :
  Number_toString (number_of_Z 23) = pretty 23%Z
  ∧ ∀ z', (Z.abs z' ≤ 2 ^ 53)%Z →
          Number_toString (number_of_Z 23) = Number_toString (number_of_Z z') →
          23%Z = z'.
Proof. apply (integer_hour_key 23). vm_compute. discriminate. Defined.

(** ** The field names *)

(** X6. The regular expression accepts exactly the keys made of one or
    more letters of ASCII followed by [Minor] or [Major], and it splits
    such a key in one way only: the tier is the last five characters. *)
Theorem field_name_pattern key prefix tierRaw :
  (regexp_exec key = Some (prefix, tierRaw) ↔ matches_pattern key prefix tierRaw)
  ∧ ∀ prefix' tierRaw',
      matches_pattern key prefix tierRaw → matches_pattern key prefix' tierRaw' →
      prefix' = prefix ∧ tierRaw' = tierRaw.
Proof.
  split; [split; [apply regexp_exec_sound|apply regexp_exec_complete]|].
  intros prefix' tierRaw' H1%regexp_exec_complete H2%regexp_exec_complete.
  rewrite H1 in H2. by injection H2 as <- <-.
Qed.

(** ** What a round does to the schedule *)

Section for_of_in.
Context {S B : Type} (body : S → B → result S).

(** [for_of_invariant] for a property that may depend on the round being
    one of the list. *)
Lemma for_of_invariant_in (P : S → Prop) (l : list B) s s' :
  (∀ s b s', b ∈ l → P s → body s b = Ok s' → P s') →
  P s → for_of body l s = Ok s' → P s'.
Proof.
  revert s; induction l as [|b l IH]; intros s Hbody Hs; simpl.
  - by intros [= <-].
  - destruct (body s b) as [s1|] eqn:Hb; simpl; [|done].
    apply IH.
    + intros s2 b2 s2' Hin. apply Hbody. by apply list_elem_of_further.
    + eapply Hbody; [apply list_elem_of_here|done..].
Qed.

Lemma for_of_ext (body' : S → B → result S) l s :
  (∀ s b, body s b = body' s b) → for_of body l s = for_of body' l s.
Proof.
  intros Hext. revert s; induction l as [|b l IH]; intros s; simpl; [done|].
  rewrite Hext. destruct (body' s b); simpl; [apply IH|done].
Qed.

Lemma for_of_mono (body' : S → B → result S) l s s' :
  (∀ s b s', body s b = Ok s' → body' s b = Ok s') →
  for_of body l s = Ok s' → for_of body' l s = Ok s'.
Proof.
  intros Hmono. revert s; induction l as [|b l IH]; intros s; simpl; [done|].
  destruct (body s b) as [s1|] eqn:Hb; simpl; [|done].
  rewrite (Hmono _ _ _ Hb). simpl. apply IH.
Qed.
End for_of_in.

Lemma slot_insert (s : schedule) id ts tier b hour slug m t h :
  s !! id = Some ts → ts !! tier = Some b →
  slot (<[id := <[tier := <[hour := slug]> b]> ts]> s) m t h
  = if decide (m = id ∧ t = tier ∧ h = hour) then Some slug else slot s m t h.
Proof.
  intros Hid Htier. unfold slot.
  destruct (decide (m = id)) as [->|Hm].
  - rewrite lookup_insert_eq, Hid. simpl.
    destruct (decide (t = tier)) as [->|Ht].
    + rewrite lookup_insert_eq, Htier. simpl.
      destruct (decide (h = hour)) as [->|Hh].
      * rewrite lookup_insert_eq. by rewrite decide_True.
      * rewrite lookup_insert_ne by done. rewrite decide_False; [done|].
        by intros (_ & _ & ?).
    + rewrite lookup_insert_ne by done. rewrite decide_False; [done|].
      by intros (_ & ? & _).
  - rewrite lookup_insert_ne by done. rewrite decide_False; [done|].
    by intros (? & _ & _).
Qed.

(** An assignment that does not throw rewrites a bucket that exists. *)
Lemma assign_inv s mapId tier hour slug s' :
  assign s mapId tier hour slug = Ok s' →
  ∃ id ts b, String_value mapId = Ok id ∧ s !! id = Some ts ∧ ts !! tier = Some b
             ∧ s' = <[id := <[tier := <[hour := slug]> b]> ts]> s.
Proof.
  unfold assign.
  destruct (String_value mapId) as [key|]; simpl; [|done].
  destruct (s !! key) as [ts|] eqn:Hkey; [|done].
  destruct (ts !! tier) as [b|] eqn:Htier; [|done].
  intros [= <-]. by exists key, ts, b.
Qed.

Lemma process_field_inv eventTypes hour s key rawName s' :
  process_field eventTypes hour s (key, rawName) = Ok s' →
  s' = s
  ∨ ∃ prefix tierRaw name,
      regexp_exec key = Some (prefix, tierRaw)
      ∧ truthy (read prefixToMapId prefix) = true
      ∧ eventName_of rawName = Ok name ∧ no_event name = false
      ∧ truthy (read eventTypes (slugify name)) = true
      ∧ assign s (read prefixToMapId prefix) (toLowerCase tierRaw)
          (Number_toString hour) (slugify name) = Ok s'.
Proof.
  unfold process_field.
  destruct (String.eqb key "hour"); [intros [= <-]; by left|].
  destruct (regexp_exec key) as [[prefix tierRaw]|]; [|intros [= <-]; by left].
  destruct (truthy (read prefixToMapId prefix)) eqn:Hprefix; simpl; [|done].
  destruct (eventName_of rawName) as [name|]; simpl; [|done].
  destruct (no_event name) eqn:Hevent; [intros [= <-]; by left|].
  destruct (truthy (read eventTypes (slugify name))) eqn:Hslug; simpl; [|done].
  intros Hassign. right. by exists prefix, tierRaw, name.
Qed.

(** Among the values that pass the test of the prefix, only the
    identifiers of the table are keys of a seeded schedule. *)
Lemma read_prefix_seeded s prefix id :
  well_seeded s → String_value (read prefixToMapId prefix) = Ok id →
  is_Some (s !! id) → own_property prefixToMapId prefix = Some (JString id).
Proof.
  intros [Hdom _] Hid Hin%elem_of_dom. rewrite Hdom in Hin.
  apply elem_of_list_to_set in Hin. unfold read in Hid.
  destruct (own_property prefixToMapId prefix) as [mapId|] eqn:Hprefix.
  - destruct (prefixToMapId_mapIds _ _ Hprefix) as (id' & -> & _).
    simpl in Hid. congruence.
  - exfalso. unfold Object_prototype in Hid. unfold mapIds in Hin.
    repeat case_match; simpl in Hid; try done; injection Hid as <-;
      repeat (apply elem_of_cons in Hin as [Heq | Hin]; [discriminate Heq|]);
      by apply elem_of_nil in Hin.
Qed.

Lemma slot_seeded m t h : slot seeded m t h = None.
Proof.
  unfold slot. destruct (seeded !! m) as [ts|] eqn:Hm; [|done]. simpl.
  assert (ts = empty_tiers) as ->.
  { unfold seeded in Hm. rewrite !lookup_insert, lookup_empty in Hm.
    repeat case_decide; by simplify_eq. }
  unfold empty_tiers. destruct (_ !! t) as [b|] eqn:Ht; [|done]. simpl.
  rewrite !lookup_insert, lookup_empty in Ht.
  repeat case_decide; by simplify_eq.
Qed.

(** A round of a field on a seeded schedule changes nothing or fills one
    slot of a map of the table. *)
Lemma process_field_slots eventTypes hour s key rawName s' :
  well_seeded s → process_field eventTypes hour s (key, rawName) = Ok s' →
  s' = s
  ∨ ∃ prefix tierRaw name id,
      matches_pattern key prefix tierRaw
      ∧ own_property prefixToMapId prefix = Some (JString id)
      ∧ eventName_of rawName = Ok name ∧ no_event name = false
      ∧ truthy (read eventTypes (slugify name)) = true
      ∧ ∀ m t h,
          slot s' m t h
          = if decide (m = id ∧ t = toLowerCase tierRaw ∧ h = Number_toString hour)
            then Some (slugify name) else slot s m t h.
Proof.
  intros Hs [->|(prefix & tierRaw & name & Hkey & Hprefix & Hname & Hevent & Hslug
                 & Hassign)]%process_field_inv; [by left|].
  right. apply assign_inv in Hassign as (id & ts & b & Hid & Hts & Hb & ->).
  exists prefix, tierRaw, name, id. split_and!; try done.
  - by apply regexp_exec_sound.
  - by apply (read_prefix_seeded s).
  - intros m t h. by apply slot_insert.
Qed.

Lemma tier_of_pattern key prefix tierRaw :
  matches_pattern key prefix tierRaw →
  toLowerCase tierRaw = "major" ∨ toLowerCase tierRaw = "minor".
Proof. intros (_ & _ & _ & [-> | ->]); [by right|by left]. Qed.

(** A field that passes every test is stored, on every seeded schedule. *)
Lemma process_field_stored eventTypes hour s key rawName prefix tierRaw id name :
  well_seeded s → matches_pattern key prefix tierRaw →
  own_property prefixToMapId prefix = Some (JString id) →
  eventName_of rawName = Ok name → no_event name = false →
  truthy (read eventTypes (slugify name)) = true →
  ∃ s', process_field eventTypes hour s (key, rawName) = Ok s'
        ∧ ∀ m t h,
            slot s' m t h
            = if decide (m = id ∧ t = toLowerCase tierRaw ∧ h = Number_toString hour)
              then Some (slugify name) else slot s m t h.
Proof.
  intros Hs Hpattern Hprefix Hname Hevent Hslug.
  rewrite (process_field_assign _ _ _ _ _ prefix tierRaw (JString id) name);
    [|by apply regexp_exec_complete|done..].
  destruct Hs as [Hdom Htiers].
  destruct (prefixToMapId_mapIds _ _ Hprefix) as (id' & [= <-] & Hin).
  assert (is_Some (s !! id)) as [ts Hts].
  { apply elem_of_dom. rewrite Hdom. by apply elem_of_list_to_set. }
  destruct (Htiers _ _ Hts) as [[major Hmajor] [minor Hminor]].
  assert (is_Some (ts !! toLowerCase tierRaw)) as [b Hb]
    by (destruct (tier_of_pattern _ _ _ Hpattern) as [-> | ->]; eauto).
  unfold assign. simpl. rewrite Hts, Hb. eexists. split; [done|].
  intros m t h. by apply slot_insert.
Qed.

(** ** The finished schedule *)

Lemma assign_two_tiers s mapId tier hour slug s' :
  two_tiers s → assign s mapId tier hour slug = Ok s' → two_tiers s'.
Proof.
  intros Hs (id & ts & b & _ & Hts & Hb & ->)%assign_inv id' ts'.
  rewrite lookup_insert. case_decide; [|by apply Hs].
  intros [= <-]. rewrite dom_insert_L, (Hs _ _ Hts).
  apply subseteq_union_1_L, singleton_subseteq_l.
  rewrite <- (Hs _ _ Hts). apply elem_of_dom. eauto.
Qed.

Lemma seeded_two_tiers : two_tiers seeded.
Proof.
  intros id ts. unfold seeded. rewrite !lookup_insert, lookup_empty.
  repeat case_decide; try done; intros [= <-]; unfold empty_tiers;
    rewrite !dom_insert_L, dom_empty_L; set_solver.
Qed.

(** X7. Whenever buildSchedule returns a schedule, each of its maps has
    the two tiers [major] and [minor] and no other key. *)
Theorem buildSchedule_two_tiers fullRotation eventTypes s :
  buildSchedule fullRotation eventTypes = Ok s →
  ∀ mapId ts, s !! mapId = Some ts → dom ts = ({[ "major"; "minor" ]} : gset string).
Proof.
  rewrite buildSchedule_unfold. intros Hbuild.
  apply (for_of_invariant _ two_tiers _ _ _) in Hbuild; [done| |apply seeded_two_tiers].
  intros s1 entry s2 Hs1. unfold process_entry.
  destruct entry as [| | | | |props]; try by intros [= <-].
  destruct (read props "hour") as [|[| |hour| | |]| |]; try by intros [= <-].
  apply for_of_invariant; [|done]. clear. intros s [key rawName] s' Hs.
  intros [->|(? & ? & ? & _ & _ & _ & _ & _ & Hassign)]%process_field_inv; [done|].
  by eapply assign_two_tiers.
Qed.

Lemma buildSchedule_two_tiers_witness :
  ∃ s ts, buildSchedule [hour_5_ambush] ambush_catalog = Ok s
          ∧ s !! "buried-city" = Some ts
          ∧ dom ts = ({[ "major"; "minor" ]} : gset string).
Proof.
  eexists _, _. split_and!; [reflexivity|reflexivity|].
  exact (buildSchedule_two_tiers [hour_5_ambush] ambush_catalog _ eq_refl
           "buried-city" _ eq_refl).
Defined.

Lemma slots_have_sources fullRotation eventTypes s :
  buildSchedule fullRotation eventTypes = Ok s →
  ∀ mapId tier hour slug,
    slot s mapId tier hour = Some slug →
    slot_source eventTypes fullRotation mapId tier hour slug.
Proof.
  rewrite buildSchedule_unfold. intros Hbuild.
  apply (for_of_invariant_in _
           (λ s, well_seeded s ∧ ∀ m t h slug, slot s m t h = Some slug →
                   slot_source eventTypes fullRotation m t h slug))
    in Hbuild; [by destruct Hbuild| |].
  - intros s1 entry s2 Hentry [Hseeded Hslots] Hround.
    split; [by eapply process_entry_well_seeded|]. revert Hround.
    unfold process_entry.
    destruct entry as [| | | | |props]; try by intros [= <-].
    destruct (read props "hour") as [|[| |hour| | |]| |] eqn:Hhour;
      try by intros [= <-].
    intros Hfields.
    apply (for_of_invariant_in _
             (λ s, well_seeded s ∧ ∀ m t h slug, slot s m t h = Some slug →
                     slot_source eventTypes fullRotation m t h slug))
      in Hfields; [by destruct Hfields| |done].
    intros s3 [key rawName] s4 Hfield [Hseeded3 Hslots3] Hround.
    split; [by eapply process_field_well_seeded|].
    apply process_field_slots in Hround; [|done].
    destruct Hround as [->|(prefix & tierRaw & name & id & Hkey & Hprefix & Hname
                            & Hevent & Hslug & Hs2)]; [done|].
    intros m t h slug. rewrite Hs2. case_decide as Htarget; [|by apply Hslots3].
    destruct Htarget as (-> & -> & ->). intros [= <-].
    by exists props, hour, key, rawName, prefix, tierRaw, name.
  - split; [apply seeded_well_seeded|]. intros m t h slug.
    by rewrite slot_seeded.
Qed.

(** X8. Whenever buildSchedule returns a schedule, every slug in it comes
    from the rotation list: the slot [mapId / tier / hour] is filled only
    if an entry with this hour has a field for this map and tier whose
    event name has this slug, and the catalog answers for the slug. *)
Theorem buildSchedule_slots_have_sources fullRotation eventTypes s :
  buildSchedule fullRotation eventTypes = Ok s →
  ∀ mapId tier hour slug,
    slot s mapId tier hour = Some slug →
    slot_source eventTypes fullRotation mapId tier hour slug.
Proof. apply slots_have_sources. Qed.

Lemma buildSchedule_slots_have_sources_witness :
  ∃ s, buildSchedule [hour_5_ambush] ambush_catalog = Ok s
       ∧ ∀ mapId tier hour slug,
           slot s mapId tier hour = Some slug →
           slot_source ambush_catalog [hour_5_ambush] mapId tier hour slug.
Proof.
  eexists. split; [reflexivity|].
  exact (buildSchedule_slots_have_sources [hour_5_ambush] ambush_catalog _ eq_refl).
Defined.

Lemma buildSchedule_app fullRotation more eventTypes :
  buildSchedule (fullRotation ++ more) eventTypes
  = (s ← buildSchedule fullRotation eventTypes;
     for_of (process_entry eventTypes) more s).
Proof. rewrite !buildSchedule_unfold. apply for_of_app. Qed.

(** X9. The entry that comes last decides its slot.  When buildSchedule
    returns a schedule for a rotation list, it returns one for the list
    with one more entry of a single field that passes the tests: the slot
    of the field holds its slug, whatever it held before, and every other
    slot is as it was. *)
Theorem buildSchedule_last_entry_wins fullRotation eventTypes s hour key rawName
    prefix tierRaw mapId name :
  buildSchedule fullRotation eventTypes = Ok s →
  matches_pattern key prefix tierRaw →
  own_property prefixToMapId prefix = Some (JString mapId) →
  eventName_of rawName = Ok name → no_event name = false →
  truthy (read eventTypes (slugify name)) = true →
  ∃ s', buildSchedule (fullRotation ++ [JObject [("hour", JNumber hour); (key, rawName)]])
          eventTypes = Ok s'
        ∧ ∀ m t h,
            slot s' m t h
            = if decide (m = mapId ∧ t = toLowerCase tierRaw ∧ h = Number_toString hour)
              then Some (slugify name) else slot s m t h.
Proof.
  intros Hbuild Hpattern Hprefix Hname Hevent Hslug.
  rewrite buildSchedule_app, Hbuild. cbn [mbind result_bind for_of].
  rewrite (process_entry_object _ _ _ hour) by reflexivity.
  cbn [for_of]. rewrite process_field_hour. cbn [mbind result_bind].
  destruct (process_field_stored eventTypes hour s key rawName prefix tierRaw
              mapId name) as (s' & -> & Hslots); try done.
  - by eapply buildSchedule_well_seeded.
  - by exists s'.
Qed.

Lemma buildSchedule_last_entry_wins_witness :
  ∃ s', buildSchedule ([dam_ambush_entry]
                       ++ [JObject [("hour", JNumber (number_of_Z 2));
                                    ("damMinor", JString "Night Raid")]])
          [("ambush", JBool true); ("night-raid", JBool true)] = Ok s'
        ∧ slot s' "dam-battleground" "minor" "2" = Some "night-raid".
Proof.
  destruct (buildSchedule_last_entry_wins [dam_ambush_entry]
              [("ambush", JBool true); ("night-raid", JBool true)]
              _ (number_of_Z 2) "damMinor" (JString "Night Raid") "dam" "Minor"
              "dam-battleground" "Night Raid" eq_refl) as (s' & Hs' & Hslots);
    try reflexivity.
  - unfold matches_pattern. split_and!; [reflexivity|discriminate|reflexivity|by left].
  - exists s'. split; [done|]. rewrite Hslots. reflexivity.
Defined.

(** ** Errors and entries without effect *)

(** X10. The first error is final: when buildSchedule throws on a rotation
    list, it throws the same error on every list that continues it. *)
Theorem buildSchedule_error_final fullRotation eventTypes e :
  buildSchedule fullRotation eventTypes = Err e →
  ∀ more, buildSchedule (fullRotation ++ more) eventTypes = Err e.
Proof. intros Hbuild more. by rewrite buildSchedule_app, Hbuild. Qed.

Lemma buildSchedule_error_final_witness :
  buildSchedule ([zoo_none_entry] ++ [hour_5_ambush; JNull]) ambush_catalog
  = Err (UnexpectedMapPrefix "zoo").
Proof.
  exact (buildSchedule_error_final [zoo_none_entry] ambush_catalog
           (UnexpectedMapPrefix "zoo") eq_refl [hour_5_ambush; JNull]).
Defined.

(** X11. An entry [null] makes buildSchedule throw a type error: when the
    entries before it give a schedule, reading the hour of [null] throws,
    whatever follows. *)
Theorem buildSchedule_null_entry fullRotation eventTypes s :
  buildSchedule fullRotation eventTypes = Ok s →
  ∀ more, buildSchedule (fullRotation ++ JNull :: more) eventTypes
          = Err (TypeError "Cannot read properties of null (reading 'hour')").
Proof. intros Hbuild more. by rewrite buildSchedule_app, Hbuild. Qed.

Lemma buildSchedule_null_entry_witness :
  buildSchedule ([hour_5_ambush] ++ JNull :: [dam_none_entry]) ambush_catalog
  = Err (TypeError "Cannot read properties of null (reading 'hour')").
Proof.
  exact (buildSchedule_null_entry [hour_5_ambush] ambush_catalog _ eq_refl
           [dam_none_entry]).
Defined.

(** X12. An entry that is a boolean, a number, a string or an array has
    no hour and is skipped: the result is what it is for the rotation
    list without the entry. *)
Theorem buildSchedule_skips_non_records eventTypes entry :
  not_a_record entry = true →
  ∀ before after,
    buildSchedule (before ++ entry :: after) eventTypes
    = buildSchedule (before ++ after) eventTypes.
Proof.
  intros Hentry before after. rewrite !buildSchedule_unfold.
  apply for_of_skip. intros s. by destruct entry.
Qed.

Lemma buildSchedule_skips_non_records_witness :
  buildSchedule ([dam_none_entry] ++ JArray [hour_5_ambush] :: [hour_5_ambush])
    ambush_catalog
  = buildSchedule ([dam_none_entry] ++ [hour_5_ambush]) ambush_catalog.
Proof.
  exact (buildSchedule_skips_non_records ambush_catalog (JArray [hour_5_ambush])
           eq_refl [dam_none_entry] [hour_5_ambush]).
Defined.

(** X13. A field whose name does not match the pattern is skipped, whatever
    its value: its round changes no schedule and throws nothing, and an
    entry gives what it gives without the field, unless the field is the
    hour itself. *)
Theorem unmatched_field_skipped eventTypes hour key rawName :
  (∀ prefix tierRaw, ¬ matches_pattern key prefix tierRaw) →
  skips_field eventTypes hour (key, rawName)
  ∧ (key ≠ "hour" →
     ∀ before after s,
       read (before ++ after) "hour" = Json (JNumber hour) →
       process_entry eventTypes s (JObject (before ++ (key, rawName) :: after))
       = process_entry eventTypes s (JObject (before ++ after))).
Proof.
  intros Hkey.
  assert (skips_field eventTypes hour (key, rawName)) as Hskip.
  { intros s. apply process_field_unmatched.
    destruct (regexp_exec key) as [[prefix tierRaw]|] eqn:Hexec; [|done].
    by destruct (Hkey prefix tierRaw); apply regexp_exec_sound. }
  split; [done|]. intros Hhour before after s Hread.
  by apply field_skipped_buildSchedule with (hour := hour).
Qed.

Lemma unmatched_field_skipped_witness :
  skips_field ambush_catalog (number_of_Z 1) ("dammajor", JString "Ambush")
  ∧ ("dammajor" ≠ "hour" →
     ∀ before after s,
       read (before ++ after) "hour" = Json (JNumber (number_of_Z 1)) →
       process_entry ambush_catalog s
         (JObject (before ++ ("dammajor", JString "Ambush") :: after))
       = process_entry ambush_catalog s (JObject (before ++ after))).
Proof.
  apply (unmatched_field_skipped ambush_catalog (number_of_Z 1) "dammajor"
           (JString "Ambush")).
  intros prefix tierRaw Hpattern%regexp_exec_complete. vm_compute in Hpattern.
  discriminate Hpattern.
Defined.

(** ** The catalog *)

Lemma process_field_catalog_mono c1 c2 hour s field s' :
  (∀ slug, truthy (read c1 slug) = true → truthy (read c2 slug) = true) →
  process_field c1 hour s field = Ok s' → process_field c2 hour s field = Ok s'.
Proof.
  intros Hmono. destruct field as [key rawName]. unfold process_field.
  destruct (String.eqb key "hour"); [done|].
  destruct (regexp_exec key) as [[prefix tierRaw]|]; [|done].
  destruct (negb (truthy (read prefixToMapId prefix))); [done|].
  destruct (eventName_of rawName) as [name|]; simpl; [|done].
  destruct (no_event name); [done|].
  destruct (truthy (read c1 (slugify name))) eqn:Hslug; simpl; [|done].
  by rewrite (Hmono _ Hslug).
Qed.

Lemma process_entry_catalog_mono c1 c2 s entry s' :
  (∀ slug, truthy (read c1 slug) = true → truthy (read c2 slug) = true) →
  process_entry c1 s entry = Ok s' → process_entry c2 s entry = Ok s'.
Proof.
  intros Hmono. unfold process_entry.
  destruct entry as [| | | | |props]; try done.
  destruct (read props "hour") as [|[| |hour| | |]| |]; try done.
  apply for_of_mono. intros ???. by apply process_field_catalog_mono.
Qed.

(** X14. buildSchedule reads the catalog for the truthiness of its
    entries only: two catalogs that answer alike for every slug give the
    same schedule or the same error. *)
Theorem buildSchedule_catalog_truthiness fullRotation c1 c2 :
  (∀ slug, truthy (read c1 slug) = truthy (read c2 slug)) →
  buildSchedule fullRotation c1 = buildSchedule fullRotation c2.
Proof.
  intros Hsame. rewrite !buildSchedule_unfold. apply for_of_ext.
  intros s entry. unfold process_entry.
  destruct entry as [| | | | |props]; try done.
  destruct (read props "hour") as [|[| |hour| | |]| |]; try done.
  apply for_of_ext. intros s' [key rawName]. unfold process_field.
  destruct (String.eqb key "hour"); [done|].
  destruct (regexp_exec key) as [[prefix tierRaw]|]; [|done].
  destruct (negb (truthy (read prefixToMapId prefix))); [done|].
  destruct (eventName_of rawName) as [name|]; simpl; [|done].
  by rewrite Hsame.
Qed.

Lemma buildSchedule_catalog_truthiness_witness :
  buildSchedule [hour_5_ambush; dam_none_entry] ambush_catalog
  = buildSchedule [hour_5_ambush; dam_none_entry] [("ambush", JBool true)].
Proof.
  apply (buildSchedule_catalog_truthiness [hour_5_ambush; dam_none_entry]
           ambush_catalog [("ambush", JBool true)]).
  intros slug. unfold read, ambush_catalog. simpl.
  destruct (String.eqb slug "ambush"); reflexivity.
Defined.

Lemma catalog_mono fullRotation c1 c2 s :
  (∀ slug, truthy (read c1 slug) = true → truthy (read c2 slug) = true) →
  buildSchedule fullRotation c1 = Ok s → buildSchedule fullRotation c2 = Ok s.
Proof.
  intros Hmono. rewrite !buildSchedule_unfold. apply for_of_mono.
  intros ???. by apply process_entry_catalog_mono.
Qed.

(** X15. A catalog that answers for more slugs accepts what a catalog
    that answers for fewer accepts, with the same schedule. *)
Theorem buildSchedule_catalog_mono fullRotation c1 c2 s :
  (∀ slug, truthy (read c1 slug) = true → truthy (read c2 slug) = true) →
  buildSchedule fullRotation c1 = Ok s → buildSchedule fullRotation c2 = Ok s.
Proof. apply catalog_mono. Qed.

Lemma buildSchedule_catalog_mono_witness :
  ∃ s, buildSchedule [hour_5_ambush] (("storm", JObject []) :: ambush_catalog) = Ok s
       ∧ slot s "buried-city" "minor" "5" = Some "ambush".
Proof.
  eexists. split.
  - apply (buildSchedule_catalog_mono [hour_5_ambush] ambush_catalog
             (("storm", JObject []) :: ambush_catalog)); [|reflexivity].
    intros slug. unfold read, ambush_catalog. simpl.
    destruct (String.eqb slug "storm"); [|done].
    destruct (String.eqb slug "ambush"); reflexivity.
  - vm_compute. reflexivity.
Defined.

(** ** More on mergeEventLocalizations *)

Lemma merged_truthy remoteEventTypes slug config :
  truthy_json config = true →
  truthy_json (merged remoteEventTypes slug config) = true.
Proof. unfold merged. by destruct (carried_localizations remoteEventTypes slug). Qed.

Lemma Object_keys_merged remoteEventTypes (eventTypes : object) :
  Object_keys ((λ e, (e.1, merged remoteEventTypes e.1 e.2)) <$> eventTypes)
  = Object_keys eventTypes.
Proof. unfold Object_keys. by rewrite <- list_fmap_compose. Qed.

Lemma merged_catalog_truthy eventTypes remoteEventTypes slug :
  NoDup (Object_keys eventTypes) →
  truthy (read eventTypes slug) = true →
  truthy (read (mergeEventLocalizations eventTypes remoteEventTypes) slug) = true.
Proof.
  intros Hnodup. rewrite mergeEventLocalizations_merged by done. unfold read.
  rewrite (own_property_merged (merged remoteEventTypes)).
  destruct (own_property eventTypes slug) as [config|]; simpl; [|done].
  apply merged_truthy.
Qed.

(** X16. The schedule and the merged catalog fit together.  When
    buildSchedule accepts a rotation list with the local catalog, it
    accepts it with the merged catalog and returns the same schedule, and
    the merged catalog answers for every slug of that schedule. *)
Theorem buildSchedule_merged_catalog fullRotation eventTypes remoteEventTypes s :
  NoDup (Object_keys eventTypes) →
  buildSchedule fullRotation eventTypes = Ok s →
  buildSchedule fullRotation (mergeEventLocalizations eventTypes remoteEventTypes)
  = Ok s
  ∧ ∀ mapId tier hour slug,
      slot s mapId tier hour = Some slug →
      truthy (read (mergeEventLocalizations eventTypes remoteEventTypes) slug) = true.
Proof.
  intros Hnodup Hbuild. split.
  - revert Hbuild. apply catalog_mono. intros slug.
    by apply merged_catalog_truthy.
  - intros mapId tier hour slug Hslot.
    destruct (slots_have_sources _ _ _ Hbuild _ _ _ _ Hslot)
      as (? & ? & ? & ? & ? & ? & ? & _ & _ & _ & _ & _ & _ & _ & _ & _ & _ & Hslug).
    by apply merged_catalog_truthy.
Qed.

Lemma buildSchedule_merged_catalog_witness :
  ∃ s, buildSchedule [hour_5_ambush] local_catalog = Ok s
       ∧ buildSchedule [hour_5_ambush]
           (mergeEventLocalizations local_catalog remote_catalog) = Ok s
       ∧ ∀ mapId tier hour slug,
           slot s mapId tier hour = Some slug →
           truthy (read (mergeEventLocalizations local_catalog remote_catalog) slug)
           = true.
Proof.
  eexists. split; [reflexivity|].
  apply (buildSchedule_merged_catalog [hour_5_ambush] local_catalog remote_catalog);
    [|reflexivity].
  apply (bool_decide_unpack _). vm_compute. exact I.
Defined.

Lemma set_property_twice k v v' (o : object) :
  set_property k v (set_property k v' o) = set_property k v o.
Proof.
  induction o as [|[k1 v1] o IH]; simpl.
  - by rewrite String.eqb_refl.
  - destruct (String.eqb k k1) eqn:Hk; simpl.
    + by rewrite String.eqb_refl.
    + by rewrite Hk, IH.
Qed.

Lemma merged_twice remoteEventTypes slug config :
  merged remoteEventTypes slug (merged remoteEventTypes slug config)
  = merged remoteEventTypes slug config.
Proof.
  unfold merged.
  destruct (carried_localizations remoteEventTypes slug); [|done].
  simpl. by rewrite set_property_twice.
Qed.

(** X17. Merging is idempotent: merging the same remote mapping into the
    merged catalog changes nothing. *)
Theorem mergeEventLocalizations_idempotent eventTypes remoteEventTypes :
  NoDup (Object_keys eventTypes) →
  mergeEventLocalizations
    (mergeEventLocalizations eventTypes remoteEventTypes) remoteEventTypes
  = mergeEventLocalizations eventTypes remoteEventTypes.
Proof.
  intros Hnodup. rewrite (mergeEventLocalizations_merged eventTypes) by done.
  rewrite mergeEventLocalizations_merged by (by rewrite Object_keys_merged).
  rewrite <- list_fmap_compose. apply list_fmap_ext.
  intros i [slug config] _. simpl. by rewrite merged_twice.
Qed.

Lemma mergeEventLocalizations_idempotent_witness :
  mergeEventLocalizations
    (mergeEventLocalizations local_catalog remote_catalog) remote_catalog
  = mergeEventLocalizations local_catalog remote_catalog.
Proof.
  apply (mergeEventLocalizations_idempotent local_catalog remote_catalog).
  apply (bool_decide_unpack _). vm_compute. exact I.
Defined.

Lemma merge_loop_unchanged remoteEventTypes (entries next : object) :
  (∀ slug, slug ∈ Object_keys entries →
           carried_localizations remoteEventTypes slug = None) →
  fold_left (merge_entry remoteEventTypes) entries next = next.
Proof.
  revert next. induction entries as [|[slug config] entries IH]; intros next Hnone;
    [done|].
  cbn [fold_left]. rewrite merge_entry_carried, (Hnone slug).
  - apply IH. intros slug' Hin. apply Hnone.
    unfold Object_keys in *. simpl. by apply list_elem_of_further.
  - unfold Object_keys. simpl. apply list_elem_of_here.
Qed.

(** X18. When the remote mapping carries structured localizations for none
    of the keys of the local catalog, the merge returns the local catalog
    as it is; so it does for the empty remote mapping, which stands for
    a payload without [eventTypes]. *)
Theorem mergeEventLocalizations_unchanged eventTypes remoteEventTypes :
  (∀ slug, slug ∈ Object_keys eventTypes →
           carried_localizations remoteEventTypes slug = None) →
  mergeEventLocalizations eventTypes remoteEventTypes = eventTypes
  ∧ mergeEventLocalizations eventTypes [] = eventTypes.
Proof.
  intros Hnone. split; apply merge_loop_unchanged; [done|]. by intros.
Qed.

Lemma mergeEventLocalizations_unchanged_witness :
  mergeEventLocalizations local_catalog
    [("storm", JObject [("localizations", en_ambush)]); ("ambush", JNull)]
  = local_catalog
  ∧ mergeEventLocalizations local_catalog [] = local_catalog.
Proof.
  apply (mergeEventLocalizations_unchanged local_catalog
           [("storm", JObject [("localizations", en_ambush)]); ("ambush", JNull)]).
  intros slug Hin. unfold Object_keys, local_catalog in Hin. simpl in Hin.
  repeat (apply elem_of_cons in Hin as [-> | Hin]; [reflexivity|]).
  by apply elem_of_nil in Hin.
Defined.

(** ** The order of the fields *)

(** The round of a field, whatever the schedule: it skips, or it assigns
    to a slot of a map of the table. *)
Lemma process_field_cases eventTypes hour s key rawName s' :
  well_seeded s → process_field eventTypes hour s (key, rawName) = Ok s' →
  (skips_field eventTypes hour (key, rawName) ∧ s' = s)
  ∨ ∃ prefix tierRaw name id,
      matches_pattern key prefix tierRaw
      ∧ own_property prefixToMapId prefix = Some (JString id)
      ∧ (∀ s0, process_field eventTypes hour s0 (key, rawName)
               = assign s0 (Json (JString id)) (toLowerCase tierRaw)
                   (Number_toString hour) (slugify name))
      ∧ assign s (Json (JString id)) (toLowerCase tierRaw)
          (Number_toString hour) (slugify name) = Ok s'.
Proof.
  intros Hs. unfold skips_field, process_field.
  destruct (String.eqb key "hour") eqn:Hhour; [intros [= <-]; by left|].
  destruct (regexp_exec key) as [[prefix tierRaw]|] eqn:Hkey;
    [|intros [= <-]; by left].
  destruct (truthy (read prefixToMapId prefix)) eqn:Hprefix; simpl; [|done].
  destruct (eventName_of rawName) as [name|]; simpl; [|done].
  destruct (no_event name) eqn:Hevent; [intros [= <-]; by left|].
  destruct (truthy (read eventTypes (slugify name))) eqn:Hslug; simpl; [|done].
  intros Hassign. right.
  destruct (assign_inv _ _ _ _ _ _ Hassign) as (id & ts & b & Hid & Hts & _ & _).
  pose proof (read_prefix_seeded s prefix id Hs Hid (mk_is_Some _ _ Hts)) as Hown.
  assert (read prefixToMapId prefix = Json (JString id)) as Hread
    by (unfold read; by rewrite Hown).
  rewrite Hread in *. exists prefix, tierRaw, name, id.
  split_and!; [by apply regexp_exec_sound|done|done|done].
Qed.

Lemma assign_commute s id1 t1 h1 a id2 t2 h2 b s1 s2 :
  (id1, t1) ≠ (id2, t2) →
  assign s (Json (JString id1)) t1 h1 a = Ok s1 →
  assign s1 (Json (JString id2)) t2 h2 b = Ok s2 →
  ∃ s1', assign s (Json (JString id2)) t2 h2 b = Ok s1'
         ∧ assign s1' (Json (JString id1)) t1 h1 a = Ok s2.
Proof.
  intros Hne. unfold assign. simpl.
  destruct (s !! id1) as [ts1|] eqn:Hid1; [|done].
  destruct (ts1 !! t1) as [b1|] eqn:Ht1; [|done]. intros [= <-].
  destruct (decide (id1 = id2)) as [<-|Hid].
  - rewrite lookup_insert_eq.
    assert (t1 ≠ t2) as Ht by congruence.
    rewrite lookup_insert_ne by done.
    destruct (ts1 !! t2) as [b2|] eqn:Ht2; [|done]. intros [= <-].
    rewrite Hid1, Ht2. eexists. split; [done|].
    rewrite lookup_insert_eq, lookup_insert_ne, Ht1 by done.
    rewrite !insert_insert_eq. f_equal. f_equal. by apply insert_insert_ne.
  - rewrite lookup_insert_ne by done.
    destruct (s !! id2) as [ts2|] eqn:Hid2; [|done].
    destruct (ts2 !! t2) as [b2|] eqn:Ht2; [|done]. intros [= <-].
    eexists. split; [done|].
    rewrite lookup_insert_ne, Hid1, Ht1 by done. f_equal.
    by apply insert_insert_ne.
Qed.

(** Two prefixes of the table with the same identifier are equal. *)
Lemma prefixToMapId_inj p1 p2 mapId :
  own_property prefixToMapId p1 = Some mapId →
  own_property prefixToMapId p2 = Some mapId → p1 = p2.
Proof.
  unfold prefixToMapId. simpl. intros H1 H2.
  repeat case_match; simplify_eq;
    repeat match goal with H : String.eqb _ _ = true |- _ =>
      apply String.eqb_eq in H end; congruence.
Qed.

Lemma pattern_slot_inj k1 k2 p1 p2 r1 r2 id :
  matches_pattern k1 p1 r1 → matches_pattern k2 p2 r2 →
  own_property prefixToMapId p1 = Some id →
  own_property prefixToMapId p2 = Some id →
  toLowerCase r1 = toLowerCase r2 → k1 = k2.
Proof.
  intros (-> & _ & _ & Hr1) (-> & _ & _ & Hr2) Hp1 Hp2 Hr.
  rewrite (prefixToMapId_inj _ _ _ Hp1 Hp2). f_equal.
  destruct Hr1 as [-> | ->], Hr2 as [-> | ->]; done.
Qed.

Lemma process_field_commute eventTypes hour s x y s1 s2 :
  well_seeded s → x.1 ≠ y.1 →
  process_field eventTypes hour s y = Ok s1 →
  process_field eventTypes hour s1 x = Ok s2 →
  ∃ s1', process_field eventTypes hour s x = Ok s1'
         ∧ process_field eventTypes hour s1' y = Ok s2.
Proof.
  intros Hs Hne Hy Hx. destruct x as [kx rx], y as [ky ry]. simpl in Hne.
  assert (well_seeded s1) as Hs1 by (by eapply process_field_well_seeded).
  destruct (process_field_cases _ _ _ _ _ _ Hs Hy)
    as [[Hskipy ->]|(py & ry' & ny & idy & Hpy & Hidy & Hally & Hassigny)].
  { exists s2. by rewrite Hx, Hskipy. }
  destruct (process_field_cases _ _ _ _ _ _ Hs1 Hx)
    as [[Hskipx ->]|(px & rx' & nx & idx & Hpx & Hidx & Hallx & Hassignx)].
  { exists s. by rewrite Hskipx, Hy. }
  assert ((idy, toLowerCase ry') ≠ (idx, toLowerCase rx')) as Hslot.
  { intros [= <- Hr]. apply Hne. symmetry. by eapply pattern_slot_inj. }
  destruct (assign_commute _ _ _ _ _ _ _ _ _ _ _ Hslot Hassigny Hassignx)
    as (s1' & Hx' & Hy').
  exists s1'. by rewrite Hallx, Hally.
Qed.

Lemma fields_permutation eventTypes hour (l l' : object) :
  l ≡ₚ l' →
  ∀ s s', well_seeded s → NoDup (Object_keys l) →
          for_of (process_field eventTypes hour) l s = Ok s' →
          for_of (process_field eventTypes hour) l' s = Ok s'.
Proof.
  unfold Object_keys.
  induction 1 as [|x l l' Hperm IH|x y l|l l' l'' Hperm1 IH1 Hperm2 IH2];
    intros s s' Hs Hnodup; simpl.
  - done.
  - destruct (process_field eventTypes hour s x) as [s1|] eqn:Hx; simpl; [|done].
    apply IH; [by eapply process_field_well_seeded|]. by inversion Hnodup.
  - destruct (process_field eventTypes hour s y) as [s1|] eqn:Hy; simpl; [|done].
    destruct (process_field eventTypes hour s1 x) as [s2|] eqn:Hx; simpl; [|done].
    assert (x.1 ≠ y.1) as Hne.
    { intros Heq. simpl in Hnodup. apply NoDup_cons in Hnodup as [Hnotin _].
      apply Hnotin. rewrite Heq. apply list_elem_of_here. }
    destruct (process_field_commute _ _ _ _ _ _ _ Hs Hne Hy Hx)
      as (s1' & -> & Hy').
    simpl. by rewrite Hy'.
  - intros Hl. apply IH2; [done| |by apply IH1].
    by rewrite <- Hperm1.
Qed.

Lemma own_property_elem_of {A} (l : list (string * A)) k v :
  NoDup (l.*1) → own_property l k = Some v ↔ (k, v) ∈ l.
Proof.
  induction l as [|[k' v'] l IH]; simpl; intros Hnodup.
  - split; [done|]. by intros ?%elem_of_nil.
  - apply NoDup_cons in Hnodup as [Hnotin Hnodup].
    destruct (String.eqb_spec k k') as [->|Hne].
    + split; [intros [= ->]; apply list_elem_of_here|].
      intros [[= ->]|Hin]%elem_of_cons; [done|].
      destruct Hnotin. apply list_elem_of_fmap. by exists (k', v).
    + rewrite (IH Hnodup). split; [apply list_elem_of_further|].
      intros [[= -> ->]|Hin]%elem_of_cons; done.
Qed.

Lemma read_permutation (l l' : object) k :
  l ≡ₚ l' → NoDup (Object_keys l) → read l k = read l' k.
Proof.
  intros Hperm Hnodup. unfold read.
  assert (NoDup (l'.*1)) as Hnodup' by (by rewrite <- Hperm).
  assert (own_property l k = own_property l' k) as ->; [|done].
  apply option_eq. intros v.
  rewrite !own_property_elem_of by done. by rewrite Hperm.
Qed.

(** X19. The order of the fields of an entry does not matter to the
    schedule: when buildSchedule returns a schedule for a rotation list,
    it returns the same schedule for the list in which the fields of one
    entry, a record, stand in another order. *)
Theorem buildSchedule_field_order eventTypes before after props props' s :
  props ≡ₚ props' → NoDup (Object_keys props) →
  buildSchedule (before ++ JObject props :: after) eventTypes = Ok s →
  buildSchedule (before ++ JObject props' :: after) eventTypes = Ok s.
Proof.
  intros Hperm Hnodup. rewrite !buildSchedule_unfold, !for_of_app.
  destruct (for_of (process_entry eventTypes) before seeded) as [s0|] eqn:Hbefore;
    [|done].
  assert (well_seeded s0) as Hs0.
  { apply (for_of_invariant _ well_seeded _ _ _) in Hbefore;
      [done| |apply seeded_well_seeded].
    intros ???. apply process_entry_well_seeded. }
  cbn [mbind result_bind for_of].
  destruct (process_entry eventTypes s0 (JObject props)) as [s1|] eqn:Hentry;
    [|done].
  assert (process_entry eventTypes s0 (JObject props') = Ok s1) as ->; [|done].
  revert Hentry. unfold process_entry.
  rewrite <- (read_permutation props props') by done.
  destruct (read props "hour") as [|[| |hour| | |]| |]; try done.
  by apply fields_permutation.
Qed.

Lemma buildSchedule_field_order_witness :
  ∃ s, buildSchedule ([] ++ JObject [("buriedCityMinor", JString "Ambush");
                                     ("damMajor", JString "Ambush");
                                     ("hour", JNumber (number_of_Z 5))] :: [])
         ambush_catalog = Ok s
       ∧ slot s "buried-city" "minor" "5" = Some "ambush"
       ∧ slot s "dam-battleground" "major" "5" = Some "ambush".
Proof.
  eexists. split.
  - apply (buildSchedule_field_order ambush_catalog [] []
             [("hour", JNumber (number_of_Z 5)); ("buriedCityMinor", JString "Ambush");
              ("damMajor", JString "Ambush")]).
    + etrans; [apply perm_swap|]. apply perm_skip, perm_swap.
    + apply (bool_decide_unpack _). vm_compute. exact I.
    + reflexivity.
  - split; vm_compute; reflexivity.
Defined.

(** ** White space around an event name *)

Lemma trimEnd_idemp s : trimEnd (trimEnd s) = trimEnd s.
Proof.
  induction s as [|c s IH]; [done|]. cbn [trimEnd].
  destruct (is_white_space (String c (trimEnd s))) eqn:Hw; [done|].
  cbn [trimEnd]. by rewrite IH, Hw.
Qed.

Lemma trimEnd_fixed_tail c s : trimEnd (String c s) = String c s → trimEnd s = s.
Proof.
  cbn [trimEnd]. destruct (is_white_space (String c (trimEnd s))); [done|].
  by intros [= ->].
Qed.

Lemma trimEnd_trimStart_bounded n s :
  (String.length s ≤ n)%nat → trimEnd s = s → trimEnd (trimStart s) = trimStart s.
Proof.
  revert s. induction n as [|n IH]; intros s Hlen Hs;
    destruct s as [|c r]; simpl in Hlen; [done|lia|done|].
  pose proof (trimEnd_fixed_tail _ _ Hs) as Hr. cbn [trimStart].
  destruct (is_white_space (String c "")); [apply IH; [lia|done]|].
  destruct r as [|c2 r2]; [done|].
  pose proof (trimEnd_fixed_tail _ _ Hr) as Hr2. simpl in Hlen.
  destruct (is_white_space (String c (String c2 ""))); [apply IH; [lia|done]|].
  destruct r2 as [|c3 r3]; [done|].
  pose proof (trimEnd_fixed_tail _ _ Hr2) as Hr3. simpl in Hlen.
  destruct (is_white_space (String c (String c2 (String c3 ""))));
    [apply IH; [lia|done]|done].
Qed.

Lemma trimStart_idemp_bounded n s :
  (String.length s ≤ n)%nat → trimStart (trimStart s) = trimStart s.
Proof.
  revert s. induction n as [|n IH]; intros s Hlen;
    destruct s as [|c r]; simpl in Hlen; [done|lia|done|].
  cbn [trimStart].
  destruct (is_white_space (String c "")) eqn:H1; [apply IH; lia|].
  destruct r as [|c2 r2]; [cbn [trimStart]; by rewrite H1|]. simpl in Hlen.
  destruct (is_white_space (String c (String c2 ""))) eqn:H2; [apply IH; lia|].
  destruct r2 as [|c3 r3]; [cbn [trimStart]; by rewrite H1, H2|]. simpl in Hlen.
  destruct (is_white_space (String c (String c2 (String c3 "")))) eqn:H3;
    [apply IH; lia|].
  cbn [trimStart]. by rewrite H1, H2, H3.
Qed.

Lemma trim_idemp s : trim (trim s) = trim s.
Proof.
  unfold trim.
  rewrite (trimEnd_trimStart_bounded (String.length (trimEnd s)))
    by (done || apply trimEnd_idemp).
  by apply (trimStart_idemp_bounded (String.length (trimEnd s))).
Qed.

(** X20. The round of a field whose value is a string does what the round
    with the trimmed string does, to the schedule and in the error it
    throws: the white space that [trim] removes at the two ends does not
    count. *)
Theorem process_field_trimmed eventTypes hour s key name :
  process_field eventTypes hour s (key, JString (trim name))
  = process_field eventTypes hour s (key, JString name).
Proof. unfold process_field, eventName_of. by rewrite trim_idemp. Qed.
